(** * Import-path codemod scripts: [scripts/fix-imports.py] and
      [scripts/final-import-fix.py]

    A shallow embedding of the two scripts and of the parts of Python they
    rely on ([str.replace], [in] on strings, [re.sub] for the regular
    expressions that occur in [FIXES], [open]/[read]/[write], [print],
    [try]/[except Exception]), followed by the properties of the rewrite
    pass and of the runners.

    Text is a list of characters.  Every pattern and replacement of the two
    rule tables is plain ASCII, and UTF-8 never uses an ASCII byte inside
    the encoding of another character, so matching and replacing on the
    UTF-8 bytes of a file agrees with matching and replacing on its code
    points. *)

From Stdlib Require Import Ascii String List Bool Arith Lia DecimalString.
From stdpp Require Import base list gmap strings.
Import ListNotations.

Abbreviation str := (list ascii).

(** A Python string literal. *)
Definition py (s : string) : str := list_ascii_of_string s.

Definition dq : ascii := ascii_of_nat 34.   (* the double quote *)
Definition sq : ascii := ascii_of_nat 39.   (* the single quote *)
Definition nl : ascii := ascii_of_nat 10.   (* the line feed *)

(* ===================================================================== *)
(** ** Python string operations *)
(* ===================================================================== *)

(** [s.startswith(p)] *)
Fixpoint startswith (p s : str) : bool :=
  match p, s with
  | [], _ => true
  | _ :: _, [] => false
  | a :: p', b :: s' => Ascii.eqb a b && startswith p' s'
  end.

(** [p in s] *)
Fixpoint contains (p s : str) : bool :=
  startswith p s ||
  match s with
  | [] => false
  | _ :: s' => contains p s'
  end.

(** The scan shared by [str.replace] and [re.sub]: walk the text from the
    left; where the matcher [m] accepts the remaining text, emit [new] and
    jump over the [len] matched characters; elsewhere copy one character.
    [skip] counts the characters of the current match still to jump
    over. *)
Fixpoint sub_from (m : str -> bool) (len : nat) (new : str)
         (skip : nat) (s : str) : str :=
  match s with
  | [] => []
  | c :: s' =>
      match skip with
      | S k => sub_from m len new k s'
      | O =>
          if m s then new ++ sub_from m len new (pred len) s'
          else c :: sub_from m len new 0 s'
      end
  end.

(** [s.replace(old, new)]: every non-overlapping occurrence of [old], from
    the left.  With an empty [old] Python puts [new] before every character
    and at the end. *)
Definition str_replace (old new s : str) : str :=
  match old with
  | [] => new ++ flat_map (fun c => c :: new) s
  | _ :: _ => sub_from (startswith old) (length old) new 0 s
  end.

(** The regular expressions of [FIXES] are sequences of items that each
    match one character: a literal (possibly written with a backslash, as
    in backslash-dot and backslash-slash) or a bracketed set of
    characters (the two quote characters). *)
Inductive re_item :=
| Chr (c : ascii)
| OneOf (cs : list ascii).

Abbreviation regex := (list re_item).

Definition item_accepts (i : re_item) (c : ascii) : bool :=
  match i with
  | Chr x => Ascii.eqb x c
  | OneOf cs => existsb (Ascii.eqb c) cs
  end.

(** [re.match(r, s)] succeeds: [r] matches at the start of [s]. *)
Fixpoint re_match (r : regex) (s : str) : bool :=
  match r, s with
  | [], _ => true
  | _ :: _, [] => false
  | i :: r', c :: s' => item_accepts i c && re_match r' s'
  end.

(** [re.sub(r, repl, s)] for such an [r] and a [repl] without backslashes:
    every match has [length r] characters, and the leftmost non-overlapping
    matches are replaced.  An empty [r] matches the empty string
    everywhere. *)
Definition re_sub (r : regex) (repl s : str) : str :=
  match r with
  | [] => repl ++ flat_map (fun c => c :: repl) s
  | _ :: _ => sub_from (re_match r) (length r) repl 0 s
  end.

(** [str(n)] for a non-negative integer. *)
Definition dec (n : nat) : str := py (NilEmpty.string_of_uint (Nat.to_uint n)).

(** The segments of a path: [p.split('/')]. *)
Fixpoint split_on (sep : ascii) (cur : str) (s : str) : list str :=
  match s with
  | [] => [rev cur]
  | c :: s' =>
      if Ascii.eqb c sep then rev cur :: split_on sep [] s'
      else split_on sep (c :: cur) s'
  end.

Definition segments (p : str) : list str := split_on "/"%char [] p.

(* ===================================================================== *)
(** ** The file system, the console and exceptions *)
(* ===================================================================== *)

(** The exceptions the scripts can meet.  All of them are subclasses of
    [Exception]. *)
Inductive exn :=
| FileNotFoundError (filename : str)
| PermissionError (filename : str)
| UnicodeDecodeError (reason : str)
| ValueError (msg : str).

(** [str(e)] *)
Definition exn_str (e : exn) : str :=
  match e with
  | FileNotFoundError f =>
      py "[Errno 2] No such file or directory: '" ++ f ++ py "'"
  | PermissionError f =>
      py "[Errno 13] Permission denied: '" ++ f ++ py "'"
  | UnicodeDecodeError r => py "'utf-8' codec can't decode " ++ r
  | ValueError m => m
  end.

(** What is stored in a file, as reading sees it: bytes that decode as
    UTF-8 to a text (the text [f.read()] returns), or bytes that do
    not. *)
Inductive stored :=
| Text (s : str)
| Undecodable (reason : str).

Record file := File {
  data : stored;
  may_read : bool;
  may_write : bool
}.

Inductive mode := R | W.
Inductive stream := Stdout | Stderr.

(** What a run does to the outside, in the order it happens. *)
Inductive event :=
| Open (path : str) (m : mode)          (* a call of [open(path, m)] *)
| Write (path : str) (content : str)    (* [f.write(content)] went through *)
| Print (to : stream) (text : str).     (* [print(text)] *)

Record world := World {
  fs : gmap str file;
  log : list event
}.

Definition emit (e : event) (w : world) : world :=
  World (fs w) (log w ++ [e]).

Inductive result (A : Type) :=
| Ok (a : A)
| Raised (e : exn).
Arguments Ok {A} a.
Arguments Raised {A} e.

(** Computations that read and change the world and may raise. *)
Definition M (A : Type) : Type := world -> result A * world.

Definition ret {A} (a : A) : M A := fun w => (Ok a, w).

Definition bind {A B} (c : M A) (k : A -> M B) : M B :=
  fun w =>
    match c w with
    | (Ok a, w') => k a w'
    | (Raised e, w') => (Raised e, w')
    end.

Definition raise {A} (e : exn) : M A := fun w => (Raised e, w).

(** [try: body  except Exception as e: handler(e)] *)
Definition try_except {A} (body : M A) (handler : exn -> M A) : M A :=
  fun w =>
    match body w with
    | (Ok a, w') => (Ok a, w')
    | (Raised e, w') => handler e w'
    end.

Notation "'do' x <- c ;; k" := (bind c (fun x => k))
  (at level 10, x name, c at level 99, k at level 200).
Notation "'exec' c ;; k" := (bind c (fun _ => k))
  (at level 10, c at level 99, k at level 200).

(** [for x in xs: acc = body(acc, x)] *)
Fixpoint for_each {A S} (xs : list A) (body : S -> A -> M S) (acc : S) : M S :=
  match xs with
  | [] => ret acc
  | x :: xs' => do acc' <- body acc x ;; for_each xs' body acc'
  end.

(** [print(text)] *)
Definition print (text : str) : M unit :=
  fun w => (Ok tt, emit (Print Stdout text) w).

(** [with open(path, 'r', encoding='utf-8') as f: content = f.read()] *)
Definition read_text (path : str) : M str :=
  fun w =>
    let w1 := emit (Open path R) w in
    match fs w !! path with
    | None => (Raised (FileNotFoundError path), w1)
    | Some f =>
        if may_read f then
          match data f with
          | Text s => (Ok s, w1)
          | Undecodable r => (Raised (UnicodeDecodeError r), w1)
          end
        else (Raised (PermissionError path), w1)
    end.

(** [with open(path, 'w', encoding='utf-8') as f: f.write(content)].
    Opening for writing creates a missing file. *)
Definition write_text (path : str) (content : str) : M unit :=
  fun w =>
    let w1 := emit (Open path W) w in
    match fs w !! path with
    | None =>
        (Ok tt, emit (Write path content)
                  (World (<[path := File (Text content) true true]> (fs w))
                         (log w1)))
    | Some f =>
        if may_write f then
          (Ok tt, emit (Write path content)
                    (World (<[path := File (Text content) (may_read f) true]>
                              (fs w))
                           (log w1)))
        else (Raised (PermissionError path), w1)
    end.

(** [Path(a) / b] *)
Definition joinpath (a b : str) : str := a ++ py "/" ++ b.

(** [p.relative_to(root)] *)
Definition relative_to (p root : str) : M str :=
  if startswith (joinpath root []) p then ret (drop (length (joinpath root [])) p)
  else raise (ValueError (py "'" ++ p ++ py "' is not in the subpath of '"
                            ++ root ++ py "'")).

(** The directory tree, as far as the runners look at it: which
    directories exist, and the paths below [dir] (relative to it) that
    [Path(dir).rglob(pattern)] yields.  The scripts neither create,
    rename nor delete files, so it stays the same during a run. *)
Record tree := Tree {
  exists_ : str -> bool;
  rglob : str -> str -> list str
}.


(* ===================================================================== *)
(** ** scripts/fix-imports.py *)
(* ===================================================================== *)

Module FixImports.

(** Import mapping: old path -> new path, in the order of the dict. *)
Definition IMPORT_MAP : list (string * string) :=
  [ ("@/lib/feed-cache", "@/lib/caching/feed-cache");
    ("@/lib/program-registry", "@/lib/solana/program-registry");
    ("@/lib/program-activity", "@/lib/solana/program-activity");
    ("@/lib/solana-connection-client", "@/lib/solana/solana-connection-client");
    ("@/lib/solana-connection-server", "@/lib/solana/solana-connection-server");
    ("@/lib/logger", "@/lib/logging/logger");
    ("@/lib/ai-service-client", "@/lib/ai/ai-service-client");
    ("@/lib/graph-state-cache", "@/lib/caching/graph-state-cache");
    ("@/lib/anomaly-patterns", "@/lib/analytics/anomaly-patterns");
    ("@/lib/configurable-anomaly-patterns",
       "@/lib/analytics/configurable-anomaly-patterns");
    ("@/lib/sse-manager", "@/lib/api/sse-manager");
    ("@/lib/rate-limit", "@/lib/api/rate-limit");
    ("@/lib/rate-limiter-tiers", "@/lib/api/rate-limiter-tiers");
    ("@/lib/moralis-api", "@/lib/external-apis/moralis-api");
    ("@/lib/transaction-constants", "@/lib/blockchain/transaction-constants");
    ("./solana-connection-client", "./solana/solana-connection-client");
    ("./opensvm-rpc", "./solana/rpc/opensvm-rpc");
    ("./rate-limit", "./api/rate-limit");
    ("./logger", "./logging/logger");
    ("./user-history-utils", "./user/user-history-utils");
    ("./user/user-history-utils", "../user/user-history-utils") ]%string.

(** [from q path q] for a quote character [q]. *)
Definition from_ (q : ascii) (path : string) : str :=
  py "from " ++ [q] ++ py path ++ [q].

(** Match both single and double quotes. *)
Definition patterns (old_path new_path : string) : list (str * str) :=
  [ (from_ sq old_path, from_ sq new_path);
    (from_ dq old_path, from_ dq new_path) ].

(** The body of the inner loop: the state is [(content, changes_made)]. *)
Definition try_pattern (st : str * bool) (p : str * str) : str * bool :=
  let '(content, changes_made) := st in
  let '(old_pattern, new_pattern) := p in
  if contains old_pattern content
  then (str_replace old_pattern new_pattern content, true)
  else (content, changes_made).

(** The two nested loops over [IMPORT_MAP.items()] and [patterns]. *)
Definition rewrite (content : str) : str * bool :=
  fold_left
    (fun st '(old_path, new_path) =>
       fold_left try_pattern (patterns old_path new_path) st)
    IMPORT_MAP (content, false).

(** Fix imports in a single file. *)
Definition fix_imports_in_file (filepath : str) : M bool :=
  try_except
    (do content <- read_text filepath ;;
     let '(content', changes_made) := rewrite content in
     if changes_made then
       exec write_text filepath content' ;;
       ret true
     else ret false)
    (fun e =>
       exec print (py "Error processing " ++ filepath ++ py ": " ++ exn_str e) ;;
       ret false).

Definition root : str := py "/home/larp/aldrin/opensvm".

Definition dirs_to_scan : list str :=
  map py ["app"; "components"; "lib"; "hooks"; "contexts"; "utils"; "types"]%string.

(** The body of the innermost loop of [main]; the state is
    [(total_files, fixed_files)]. *)
Definition visit (counts : nat * nat) (filepath : str) : M (nat * nat) :=
  let '(total_files, fixed_files) := counts in
  let total_files := total_files + 1 in
  do fixed <- fix_imports_in_file filepath ;;
  if fixed then
    do rel <- relative_to filepath root ;;
    exec print (py "✓ Fixed: " ++ rel) ;;
    ret (total_files, fixed_files + 1)
  else ret (total_files, fixed_files).

Definition main (t : tree) : M unit :=
  do counts <-
    for_each dirs_to_scan
      (fun counts dir_name =>
         let dir_path := joinpath root dir_name in
         if negb (exists_ t dir_path) then ret counts
         else
           for_each (map py ["*.ts"; "*.tsx"]%string)
             (fun counts ext =>
                for_each (map (joinpath dir_path) (rglob t dir_path ext))
                  visit counts)
             counts)
      (0, 0) ;;
  let '(total_files, fixed_files) := counts in
  print ([nl] ++ py "✨ Complete! Fixed " ++ dec fixed_files ++ py "/"
           ++ dec total_files ++ py " files").

End FixImports.

(* ===================================================================== *)
(** ** scripts/final-import-fix.py *)
(* ===================================================================== *)

Module FinalImportFix.

Definition ROOT : str := py "/home/larp/aldrin/opensvm".

(** The literal characters of a pattern. *)
Definition lit (s : string) : regex := map Chr (py s).

(** The bracketed set of the two quote characters. *)
Definition quote : re_item := OneOf [sq; dq].

Definition FIXES : list (regex * str) :=
  [ (* Relative imports from app/api *)
    (lit "from " ++ [quote] ++ lit "../../../lib/solana-connection-server"
       ++ [quote],
     py "from '@/lib/solana/solana-connection-server'");
    (lit "from " ++ [quote] ++ lit "../../../../lib/auth-server" ++ [quote],
     py "from '@/lib/api-auth/auth-server'");
    (lit "from " ++ [quote] ++ lit "../../../../../lib/qdrant" ++ [quote],
     py "from '@/lib/search/qdrant'");
    (lit "from " ++ [quote] ++ lit "../../../../lib/qdrant-search-suggestions"
       ++ [quote],
     py "from '@/lib/search/qdrant-search-suggestions'");
    (* Absolute imports *)
    (lit "from " ++ [quote] ++ lit "@/lib/program-metadata-cache" ++ [quote],
     py "from '@/lib/solana/program-metadata-cache'") ].

(** The loop over [FIXES]. *)
Definition rewrite (content : str) : str :=
  fold_left (fun content '(pattern, replacement) =>
               re_sub pattern replacement content)
            FIXES content.

Definition str_eqb (a b : str) : bool := bool_decide (a = b).

Definition fix_file (filepath : str) : M bool :=
  try_except
    (do content <- read_text filepath ;;
     let original := content in
     let content := rewrite content in
     if negb (str_eqb content original) then
       exec write_text filepath content ;;
       ret true
     else ret false)
    (fun e =>
       exec print (py "Error: " ++ filepath ++ py ": " ++ exn_str e) ;;
       ret false).

(** [p] is skipped by [main]. *)
Definition skipped (filepath : str) : bool :=
  contains (py "node_modules") filepath || contains (py ".next") filepath.

(** The body of the inner loop of [main]; the state is [fixed]. *)
Definition visit (fixed : nat) (filepath : str) : M nat :=
  if skipped filepath then ret fixed
  else
    do ok <- fix_file filepath ;;
    if ok then
      do rel <- relative_to filepath ROOT ;;
      exec print (py "✓ " ++ rel) ;;
      ret (fixed + 1)
    else ret fixed.

Definition main (t : tree) : M unit :=
  do fixed <-
    for_each (map py ["*.ts"; "*.tsx"]%string)
      (fun fixed ext =>
         for_each (map (joinpath ROOT) (rglob t ROOT ext)) visit fixed)
      0 ;;
  print ([nl] ++ py "✨ Fixed " ++ dec fixed ++ py " files").

End FinalImportFix.

(* ===================================================================== *)
(** ** Rule tables as lists of (matched strings, replacement) *)
(* ===================================================================== *)

(** Both scripts run a list of rules over the text, one after the other.
    A rule matches finitely many strings of one length (one string for
    [str.replace], the strings of the regular expression for [re.sub]) and
    puts one replacement in their place. *)
Abbreviation rule := (list str * str)%type.

Definition lang_match (L : list str) (s : str) : bool :=
  existsb (fun P => startswith P s) L.

Definition width (L : list str) : nat := length (hd [] L).

(** All strings of [L] have the same, positive length. *)
Definition uniform (L : list str) : bool :=
  negb (width L =? 0) && forallb (fun P => length P =? width L) L.

Definition apply_rule (r : rule) (s : str) : str :=
  sub_from (lang_match (fst r)) (width (fst r)) (snd r) 0 s.

Definition apply_rules (rs : list rule) (s : str) : str :=
  fold_left (fun content r => apply_rule r content) rs s.

(** The strings a regular expression of single-character items matches. *)
Definition item_chars (i : re_item) : list ascii :=
  match i with
  | Chr c => [c]
  | OneOf cs => cs
  end.

Fixpoint expand (r : regex) : list str :=
  match r with
  | [] => [[]]
  | i :: r' => flat_map (fun c => map (cons c) (expand r')) (item_chars i)
  end.

(** The scan as a relation between a text and its rewritten form: at each
    position either a matched string is replaced, or no string of [L]
    starts there and the character is kept. *)
Inductive Rep (L : list str) (new : str) : str -> str -> Prop :=
| Rep_nil : Rep L new [] []
| Rep_hit P s t :
    In P L -> Rep L new s t -> Rep L new (P ++ s) (new ++ t)
| Rep_miss c s t :
    lang_match L (c :: s) = false -> Rep L new s t ->
    Rep L new (c :: s) (c :: t).

(** *** Overlaps *)

(** One of the two strings is a prefix of the other. *)
Definition comparable (a b : str) : bool := startswith a b || startswith b a.

(** The non-empty suffixes. *)
Fixpoint tails (s : str) : list str :=
  match s with
  | [] => []
  | _ :: s' => s :: tails s'
  end.

Definition nonempty (s : str) : bool :=
  match s with [] => false | _ :: _ => true end.

(** [P] and [R] are not empty and no occurrence of [P] in a text can share
    a character with an occurrence of [R]: [P] does not start inside [R]
    and [R] does not start inside [P]. *)
Definition apart (P R : str) : bool :=
  nonempty P && nonempty R
  && forallb (fun W => negb (comparable P W)) (tails R)
  && forallb (fun Q => negb (comparable Q R)) (tails P).

Definition apart_from (L : list str) (R : str) : bool :=
  forallb (fun P => apart P R) L.

(** All strings matched by the rules [rs]. *)
Definition langs (rs : list rule) : list str := flat_map fst rs.

(** No rule's replacement overlaps a string matched by that rule, by an
    earlier rule or by one in [seen]. *)
Fixpoint settles (seen : list str) (rs : list rule) : bool :=
  match rs with
  | [] => true
  | r :: rs' =>
      apart_from (seen ++ fst r) (snd r) && settles (seen ++ fst r) rs'
  end.

(** The string [R] overlaps no string matched by the rules [rs]. *)
Definition survives (R : str) (rs : list rule) : bool :=
  forallb (fun P => apart R P) (langs rs).

(** Every way to single out one rule of a table. *)
Fixpoint splits (pre : list rule) (rs : list rule)
  : list (list rule * rule * list rule) :=
  match rs with
  | [] => []
  | r :: rs' => (pre, r, rs') :: splits (pre ++ [r]) rs'
  end.

(** The strings matched by [r] are not disturbed by the rules before it,
    and its replacement is not disturbed by the rules after it. *)
Definition carries (pre : list rule) (r : rule) (post : list rule) : bool :=
  forallb (fun P => survives P pre) (fst r) && survives (snd r) post.

Definition all_uniform (rs : list rule) : bool :=
  forallb (fun r => uniform (fst r)) rs.

(** Every replacement is longer than what it replaces. *)
Definition grows (r : rule) : bool :=
  forallb (fun P => length P <? length (snd r)) (fst r).

(** *** The two tables as rule lists *)

(** [IMPORT_MAP] with its two patterns per entry, in the order the loops
    of [fix_imports_in_file] visit them. *)
Definition import_patterns : list (str * str) :=
  flat_map (fun '(old_path, new_path) => FixImports.patterns old_path new_path)
           FixImports.IMPORT_MAP.

Definition import_rules : list rule :=
  map (fun '(old_pattern, new_pattern) => ([old_pattern], new_pattern))
      import_patterns.

Definition fixes_rules : list rule :=
  map (fun '(pattern, replacement) => (expand pattern, replacement))
      FinalImportFix.FIXES.

(** The old and new paths of [FIXES], read off its patterns and
    replacements. *)
Definition fix_paths : list (string * string) :=
  [ ("../../../lib/solana-connection-server",
       "@/lib/solana/solana-connection-server");
    ("../../../../lib/auth-server", "@/lib/api-auth/auth-server");
    ("../../../../../lib/qdrant", "@/lib/search/qdrant");
    ("../../../../lib/qdrant-search-suggestions",
       "@/lib/search/qdrant-search-suggestions");
    ("@/lib/program-metadata-cache", "@/lib/solana/program-metadata-cache")
  ]%string.

(** The pattern of [FIXES] for an old path. *)
Definition import_re (old_path : string) : regex :=
  FinalImportFix.lit "from " ++ [FinalImportFix.quote]
    ++ FinalImportFix.lit old_path ++ [FinalImportFix.quote].

(** The rules whose replacement a later rule of the same table rewrites
    again. *)
Definition chained (r : rule) : bool :=
  existsb (fun q => bool_decide (fst r = [FixImports.from_ q "./user-history-utils"]))
          [sq; dq].

(* ===================================================================== *)
(** ** What a run does, file by file *)
(* ===================================================================== *)

(** The two scripts differ in the rewrite, the lines they print, the
    paths they skip and their counters, and share the rest.  The shared
    part is described here once, over the content [changed s] to write
    back for a content [s] read (if any), the line [errline] printed for
    an exception, the line [okline] printed for a file that was written,
    and the paths to [skip]. *)
Section Runner.
Variable changed : str -> option str.
Variable errline : str -> exn -> str.
Variable okline : str -> str.
Variable skip : str -> bool.
Variable root : str.

Definition fix_with (filepath : str) : M bool :=
  try_except
    (do content <- read_text filepath ;;
     match changed content with
     | Some content' => exec write_text filepath content' ;; ret true
     | None => ret false
     end)
    (fun e => exec print (errline filepath e) ;; ret false).

Definition visit_with (fixed : nat) (filepath : str) : M nat :=
  if skip filepath then ret fixed
  else
    do ok <- fix_with filepath ;;
    if ok then
      do rel <- relative_to filepath root ;;
      exec print (okline rel) ;;
      ret (fixed + 1)
    else ret fixed.

(** How the visit of one path ends. *)
Inductive verdict :=
| Skipped
| Unchanged
| Rewritten (content : str)
| Failed (e : exn) (writing : bool).

Definition judge (m : gmap str file) (path : str) : verdict :=
  if skip path then Skipped
  else
    match m !! path with
    | None => Failed (FileNotFoundError path) false
    | Some f =>
        if may_read f then
          match data f with
          | Text s =>
              match changed s with
              | None => Unchanged
              | Some c =>
                  if may_write f then Rewritten c
                  else Failed (PermissionError path) true
              end
          | Undecodable r => Failed (UnicodeDecodeError r) false
          end
        else Failed (PermissionError path) false
    end.

Definition events_of (rel : str) (v : verdict) : list event :=
  let path := joinpath root rel in
  match v with
  | Skipped => []
  | Unchanged => [Open path R]
  | Rewritten c =>
      [Open path R; Open path W; Write path c; Print Stdout (okline rel)]
  | Failed e false => [Open path R; Print Stdout (errline path e)]
  | Failed e true =>
      [Open path R; Open path W; Print Stdout (errline path e)]
  end.

Definition files_after (rel : str) (v : verdict) (m : gmap str file)
  : gmap str file :=
  match v with
  | Rewritten c => <[joinpath root rel := File (Text c) true true]> m
  | _ => m
  end.

Definition is_rewritten (v : verdict) : bool :=
  match v with Rewritten _ => true | _ => false end.

(** The events, the files and the number of written files of a run
    over the paths [rels] below [root]. *)
Fixpoint trace (rels : list str) (m : gmap str file)
  : list event * gmap str file * nat :=
  match rels with
  | [] => ([], m, 0)
  | rel :: rels' =>
      let v := judge m (joinpath root rel) in
      let '(evs, m', n) := trace rels' (files_after rel v m) in
      (events_of rel v ++ evs, m', (if is_rewritten v then 1 else 0) + n)
  end.
End Runner.

Definition is_write (e : event) : bool :=
  match e with Write _ _ => true | _ => false end.

(** The content each script writes back. *)
Definition import_changed (content : str) : option str :=
  let '(content', changes_made) := FixImports.rewrite content in
  if changes_made then Some content' else None.

Definition fixes_changed (content : str) : option str :=
  let content' := FinalImportFix.rewrite content in
  if negb (FinalImportFix.str_eqb content' content) then Some content' else None.

Definition import_errline (filepath : str) (e : exn) : str :=
  py "Error processing " ++ filepath ++ py ": " ++ exn_str e.

Definition fixes_errline (filepath : str) (e : exn) : str :=
  py "Error: " ++ filepath ++ py ": " ++ exn_str e.

Definition import_okline (rel : str) : str := py "✓ Fixed: " ++ rel.

Definition fixes_okline (rel : str) : str := py "✓ " ++ rel.

(** The paths [main] of fix-imports.py visits, relative to [root], in
    the order of its three loops. *)
Definition import_traversal (t : tree) : list str :=
  flat_map
    (fun dir_name =>
       let dir_path := joinpath FixImports.root dir_name in
       if negb (exists_ t dir_path) then []
       else
         flat_map (fun ext => map (joinpath dir_name) (rglob t dir_path ext))
                  (map py ["*.ts"; "*.tsx"]%string))
    FixImports.dirs_to_scan.

(** The paths [main] of final-import-fix.py visits, relative to [ROOT]. *)
Definition fixes_traversal (t : tree) : list str :=
  flat_map (fun ext => rglob t FinalImportFix.ROOT ext)
           (map py ["*.ts"; "*.tsx"]%string).

(** The last lines of the two scripts. *)
Definition import_summary (fixed_files total_files : nat) : str :=
  [nl] ++ py "✨ Complete! Fixed " ++ dec fixed_files ++ py "/"
    ++ dec total_files ++ py " files".

Definition fixes_summary (fixed : nat) : str :=
  [nl] ++ py "✨ Fixed " ++ dec fixed ++ py " files".

(* ===================================================================== *)
(** ** Notions the properties are stated with *)
(* ===================================================================== *)

(** The events a computation adds to the log. *)
Definition events {A} (c : M A) (w : world) : list event :=
  drop (length (log w)) (log (snd (c w))).

(** [re.search(r, s)] finds a match. *)
Fixpoint re_search (r : regex) (s : str) : bool :=
  re_match r s ||
  match s with
  | [] => false
  | _ :: s' => re_search r s'
  end.

(** The content holds none of the patterns of fix-imports.py. *)
Definition no_import_pattern (content : str) : Prop :=
  forall old_path new_path q,
    In (old_path, new_path) FixImports.IMPORT_MAP -> In q [sq; dq] ->
    contains (FixImports.from_ q old_path) content = false.

(** No pattern of final-import-fix.py matches in the content. *)
Definition no_fixes_match (content : str) : Prop :=
  forall pattern replacement,
    In (pattern, replacement) FinalImportFix.FIXES ->
    re_search pattern content = false.

(** Reading [path], or writing back what [changed] asks for, raises [e]
    in the world [w]. *)
Definition raises (changed : str -> option str) (w : world) (path : str)
           (e : exn) : Prop :=
  fst (read_text path w) = Raised e
  \/ exists s c, fst (read_text path w) = Ok s /\ changed s = Some c
                 /\ fst (write_text path c w) = Raised e.

Abbreviation import_trace :=
  (trace import_changed import_errline import_okline (fun _ => false)
         FixImports.root).

Abbreviation fixes_trace :=
  (trace fixes_changed fixes_errline fixes_okline FinalImportFix.skipped
         FinalImportFix.ROOT).

(* ===================================================================== *)
(** ** A small tree and some worlds to run the scripts on *)
(* ===================================================================== *)

(** One file below [app], one inside [node_modules], and one component
    whose name has [.next] in it. *)
Definition demo_tree : tree :=
  Tree (fun _ => true)
       (fun dir pattern =>
          if bool_decide (dir = FinalImportFix.ROOT) then
            if bool_decide (pattern = py "*.ts")
            then [py "app/page.ts"; py "node_modules/pkg/index.ts"]
            else if bool_decide (pattern = py "*.tsx")
                 then [py "components/app.next.tsx"]
                 else []
          else if bool_decide (dir = joinpath FixImports.root (py "app"))
               then if bool_decide (pattern = py "*.ts") then [py "page.ts"] else []
               else []).

Definition page_ts : str := py "/home/larp/aldrin/opensvm/app/page.ts".
Definition vendored_ts : str :=
  py "/home/larp/aldrin/opensvm/node_modules/pkg/index.ts".
Definition app_next_tsx : str :=
  py "/home/larp/aldrin/opensvm/components/app.next.tsx".

Definition plain_file (content : str) : file := File (Text content) true true.

(** No file is there any more when the scripts come to open it. *)
Definition world_missing : world := World ∅ [].

(** [app/page.ts] has no import at all. *)
Definition world_plain : world :=
  World (<[page_ts := plain_file (py "export const x = 1;")]> ∅) [].

(** [app/page.ts] imports the logger from its old place. *)
Definition world_logger : world :=
  World (<[page_ts := plain_file (py "import { logger } from '@/lib/logger'")]> ∅)
        [].

(** The vendored file and the component both import a module that
    final-import-fix.py moves; [app/page.ts] has no import. *)
Definition world_vendored : world :=
  World (<[vendored_ts :=
             plain_file (py "import c from '@/lib/program-metadata-cache'")]>
           (<[app_next_tsx :=
                plain_file (py "import c from '@/lib/program-metadata-cache'")]>
              (<[page_ts := plain_file (py "export const x = 1;")]> ∅)))
        [].

(* ===================================================================== *)
(** * Properties of the string operations *)
(* ===================================================================== *)

Lemma startswith_spec (p s : str) :
  startswith p s = true <-> exists r, s = p ++ r.
Proof.
  revert s; induction p as [|a p IH]; intros s; simpl.
  - split; eauto.
  - destruct s as [|b s].
    + split; [discriminate | intros [r Hr]; discriminate].
    + rewrite andb_true_iff, IH, Ascii.eqb_eq. split.
      * intros [-> [r ->]]. eauto.
      * intros [r Hr]. injection Hr as -> ->. eauto.
Qed.

Lemma startswith_app (p r : str) : startswith p (p ++ r) = true.
Proof. apply startswith_spec; eauto. Qed.

Lemma contains_cons (p : str) c s :
  contains p (c :: s) = startswith p (c :: s) || contains p s.
Proof. reflexivity. Qed.

Lemma contains_spec (p s : str) :
  contains p s = true <-> exists a b, s = a ++ p ++ b.
Proof.
  induction s as [|c s IH].
  - simpl. rewrite orb_false_r, startswith_spec. split.
    + intros [r Hr]. exists [], r. exact Hr.
    + intros [a [b H]]. destruct a; [eauto | discriminate].
  - rewrite contains_cons, orb_true_iff, IH, startswith_spec. split.
    + intros [[r ->] | [a [b ->]]].
      * exists [], r. reflexivity.
      * exists (c :: a), b. reflexivity.
    + intros [[|x a] [b H]].
      * left. eauto.
      * right. injection H as -> ->. eauto.
Qed.

Lemma contains_app_r (p a s : str) :
  contains p s = true -> contains p (a ++ s) = true.
Proof.
  rewrite !contains_spec. intros [x [y ->]].
  exists (a ++ x), y. now rewrite <- app_assoc.
Qed.

Lemma contains_startswith (p s : str) :
  startswith p s = true -> contains p s = true.
Proof. destruct s; simpl; intros ->; reflexivity. Qed.

Lemma contains_self_app (p s : str) : contains p (p ++ s) = true.
Proof. apply contains_startswith, startswith_app. Qed.

(** A prefix of [a ++ b] is a prefix of [a] or continues [a]. *)
Lemma startswith_app_comparable (q a b : str) :
  startswith q (a ++ b) = true -> comparable q a = true.
Proof.
  unfold comparable. revert a; induction q as [|x q IH]; intros a H.
  - reflexivity.
  - destruct a as [|y a]; [now rewrite orb_true_r|].
    simpl in *. apply andb_true_iff in H as [Hxy H].
    rewrite Hxy. apply Ascii.eqb_eq in Hxy as ->.
    rewrite Ascii.eqb_refl. simpl. now apply IH.
Qed.

Lemma tails_self (s : str) : nonempty s = true -> In s (tails s).
Proof. destruct s; [discriminate | left; reflexivity]. Qed.

Lemma tails_step c q (p : str) :
  In (c :: q) (tails p) -> q = [] \/ In q (tails q) /\ In q (tails p).
Proof.
  induction p as [|x p IH]; simpl; [tauto|].
  intros [H | H].
  - injection H as -> ->. destruct q; [now left | right].
    split; [left; reflexivity | right; left; reflexivity].
  - destruct (IH H) as [-> | [H1 H2]]; [now left | right; split; auto].
Qed.

(** Where an occurrence of [p] in [a ++ b] starts: inside [a], or in
    [b]. *)
Lemma contains_app_cases (p a b : str) :
  contains p (a ++ b) = true ->
  (exists w, In w (tails a) /\ startswith p (w ++ b) = true)
  \/ contains p b = true.
Proof.
  induction a as [|c a IH]; simpl app; [now right|].
  rewrite contains_cons, orb_true_iff. intros [H | H].
  - left. exists (c :: a). split; [left; reflexivity | exact H].
  - destruct (IH H) as [[w [Hw Hp]] | Hb]; [left | now right].
    exists w. split; [right; exact Hw | exact Hp].
Qed.

Lemma sub_from_skip m len new k (s : str) :
  sub_from m len new k s = sub_from m len new 0 (drop k s).
Proof.
  revert k; induction s as [|c s IH]; intros k.
  - now destruct k.
  - destruct k as [|k]; [reflexivity|]. simpl sub_from at 1. now rewrite IH.
Qed.

Lemma sub_from_ext m m' len new k (s : str) :
  (forall x, m x = m' x) -> sub_from m len new k s = sub_from m' len new k s.
Proof.
  intros E. revert k; induction s as [|c s IH]; intros k; simpl; [reflexivity|].
  destruct k; [|apply IH]. rewrite E, !IH. reflexivity.
Qed.

Lemma uniform_width (L : list str) P :
  uniform L = true -> In P L -> length P = width L /\ 0 < width L.
Proof.
  unfold uniform. rewrite andb_true_iff, negb_true_iff, Nat.eqb_neq, forallb_forall.
  intros [H0 H] HP. apply H in HP. apply Nat.eqb_eq in HP. lia.
Qed.

Lemma lang_match_In (L : list str) s :
  lang_match L s = true <-> exists P, In P L /\ startswith P s = true.
Proof. apply existsb_exists. Qed.

(** The scan satisfies its relational description. *)
Lemma apply_rule_Rep (L : list str) (new s : str) :
  uniform L = true -> Rep L new s (apply_rule (L, new) s).
Proof.
  intros U. unfold apply_rule; simpl fst; simpl snd.
  remember (length s) as n eqn:Hn. revert s Hn.
  induction n as [n IH] using lt_wf_ind. intros s Hn.
  destruct s as [|c s]; [constructor|].
  simpl sub_from. destruct (lang_match L (c :: s)) eqn:Hm.
  - apply lang_match_In in Hm as [P [HP Hs]].
    destruct (uniform_width L P U HP) as [Hl Hpos].
    apply startswith_spec in Hs as [r Hr].
    destruct P as [|x P]; [simpl in Hl; lia|].
    injection Hr as -> ->.
    rewrite sub_from_skip.
    replace (drop (pred (width L)) (P ++ r)) with r
      by (rewrite <- Hl; simpl; now rewrite drop_app_length).
    change (x :: P ++ r) with ((x :: P) ++ r).
    apply Rep_hit; [exact HP|].
    apply (IH (length r)); [|reflexivity].
    subst n. simpl. rewrite length_app. lia.
  - apply Rep_miss; [exact Hm|].
    apply (IH (length s)); [subst n; simpl; lia | reflexivity].
Qed.

Lemma apart_spec (P R : str) :
  apart P R = true ->
  nonempty P = true /\ nonempty R = true
  /\ (forall W, In W (tails R) -> comparable P W = false)
  /\ (forall Q, In Q (tails P) -> comparable Q R = false).
Proof.
  unfold apart. rewrite !andb_true_iff, !forallb_forall.
  intros [[[HP HR] H1] H2]. repeat split; auto.
  - intros W HW. apply negb_true_iff. auto.
  - intros Q HQ. apply negb_true_iff. auto.
Qed.

Lemma tails_nonempty (q p : str) : In q (tails p) -> nonempty q = true.
Proof.
  induction p as [|x p IH]; simpl; [tauto|]. intros [<- | H]; auto.
Qed.

Section Scan.
Variables (L : list str) (new : str).

(** A suffix of [P] that starts the rewritten text started the original
    text, when the replacement cannot overlap [P] from the right. *)
Lemma Rep_prefix_back (P : str) s t :
  Rep L new s t ->
  (forall Q, In Q (tails P) -> comparable Q new = false) ->
  forall Q, In Q (tails P) ->
  startswith Q t = true -> startswith Q s = true.
Proof.
  intros HR HP. induction HR as [|P0 s t HP0 HR IH|c s t Hm HR IH];
    intros Q HQ Ht.
  - pose proof (tails_nonempty _ _ HQ). destruct Q; discriminate.
  - apply startswith_app_comparable in Ht. rewrite (HP Q HQ) in Ht.
    discriminate.
  - destruct Q as [|x Q]; [reflexivity|].
    simpl in *. apply andb_true_iff in Ht as [-> Ht]. simpl.
    destruct (tails_step _ _ _ HQ) as [-> | [_ HQ']]; [reflexivity|].
    now apply IH.
Qed.

(** A suffix of [R] that starts the original text starts the rewritten
    text, when no matched string can overlap [R]. *)
Lemma Rep_prefix_forth (R : str) s t :
  Rep L new s t ->
  (forall P Q, In P L -> In Q (tails R) -> comparable Q P = false) ->
  forall Q, In Q (tails R) ->
  startswith Q s = true -> startswith Q t = true.
Proof.
  intros HR HP. induction HR as [|P0 s t HP0 HR IH|c s t Hm HR IH];
    intros Q HQ Hs.
  - exact Hs.
  - apply startswith_app_comparable in Hs. rewrite (HP P0 Q HP0 HQ) in Hs.
    discriminate.
  - destruct Q as [|x Q]; [reflexivity|].
    simpl in *. apply andb_true_iff in Hs as [-> Hs]. simpl.
    destruct (tails_step _ _ _ HQ) as [-> | [_ HQ']]; [reflexivity|].
    now apply IH.
Qed.

(** After a rule has run, a string its replacement cannot overlap
    occurs nowhere, if it occurred nowhere before or is one the rule
    matches. *)
Lemma Rep_clean (P : str) s t :
  Rep L new s t ->
  apart P new = true ->
  contains P s = false \/ In P L ->
  contains P t = false.
Proof.
  intros HR HA. apply apart_spec in HA as (HPne & _ & H1 & H2).
  induction HR as [|P0 s t HP0 HR IH|c s t Hm HR IH]; intros Hs.
  - destruct P; [discriminate | reflexivity].
  - assert (Ht : contains P t = false).
    { apply IH. destruct Hs as [Hs | Hs]; [left | now right].
      destruct (contains P s) eqn:E; [|reflexivity].
      now rewrite (contains_app_r _ P0 _ E) in Hs. }
    destruct (contains P (new ++ t)) eqn:E; [|reflexivity].
    apply contains_app_cases in E as [[w [Hw Hp]] | E]; [|congruence].
    apply startswith_app_comparable in Hp. rewrite (H1 w Hw) in Hp.
    discriminate.
  - rewrite contains_cons. rewrite IH.
    + rewrite orb_false_r.
      destruct (startswith P (c :: t)) eqn:E; [|reflexivity].
      apply (Rep_prefix_back P (c :: s) (c :: t)) in E;
        [| now apply Rep_miss | exact H2 | now apply tails_self].
      destruct Hs as [Hs | Hs].
      * rewrite contains_cons, E in Hs. discriminate.
      * assert (lang_match L (c :: s) = true)
          by (apply lang_match_In; eauto).
        congruence.
    + destruct Hs as [Hs | Hs]; [left | now right].
      rewrite contains_cons in Hs. now apply orb_false_iff in Hs.
Qed.

(** A text in which no matched string occurs is left as it is. *)
Lemma Rep_id s t :
  Rep L new s t ->
  (forall P, In P L -> contains P s = false) ->
  t = s.
Proof.
  induction 1 as [|P0 s t HP0 HR IH|c s t Hm HR IH]; intros Hs.
  - reflexivity.
  - specialize (Hs P0 HP0). now rewrite contains_self_app in Hs.
  - f_equal. apply IH. intros P HP. specialize (Hs P HP).
    rewrite contains_cons in Hs. now apply orb_false_iff in Hs.
Qed.

(** An occurrence of a string that no matched string can overlap is
    kept. *)
Lemma Rep_keeps (R : str) s t :
  Rep L new s t ->
  (forall P, In P L -> apart R P = true) ->
  contains R s = true -> contains R t = true.
Proof.
  intros HR HA.
  assert (H1 : forall P W, In P L -> In W (tails P) -> comparable R W = false).
  { intros P W HP. destruct (apart_spec _ _ (HA P HP)) as (_ & _ & H & _).
    apply H. }
  assert (H2 : forall P Q, In P L -> In Q (tails R) -> comparable Q P = false).
  { intros P Q HP. destruct (apart_spec _ _ (HA P HP)) as (_ & _ & _ & H).
    apply H. }
  induction HR as [|P0 s t HP0 HR IH|c s t Hm HR IH]; intros Hs.
  - exact Hs.
  - apply contains_app_r, IH.
    apply contains_app_cases in Hs as [[w [Hw Hp]] | Hs]; [|exact Hs].
    apply startswith_app_comparable in Hp. rewrite (H1 P0 w HP0 Hw) in Hp.
    discriminate.
  - rewrite contains_cons in *. apply orb_true_iff in Hs as [Hs | Hs].
    + destruct R as [|x R]; [reflexivity|].
      erewrite (Rep_prefix_forth (x :: R)); eauto.
      * now apply Rep_miss.
      * left; reflexivity.
    + rewrite IH by exact Hs. apply orb_true_r.
Qed.

(** Where a matched string occurs, the replacement occurs afterwards. *)
Lemma Rep_fires (P : str) s t :
  Rep L new s t -> In P L -> nonempty P = true ->
  contains P s = true -> contains new t = true.
Proof.
  intros HR HP HN. induction HR as [|P0 s t HP0 HR IH|c s t Hm HR IH]; intros Hs.
  - destruct P; discriminate.
  - apply contains_self_app.
  - rewrite contains_cons in *. apply orb_true_iff in Hs as [Hs | Hs].
    + assert (lang_match L (c :: s) = true) by (apply lang_match_In; eauto).
      congruence.
    + rewrite IH by exact Hs. apply orb_true_r.
Qed.

(** Replacements that are at least as long as what they replace do not
    shorten the text, and longer ones lengthen it where they fire. *)
Lemma Rep_length s t :
  Rep L new s t ->
  (forall P, In P L -> length P <= length new) ->
  length s <= length t.
Proof.
  intros HR HL. induction HR as [|P0 s t HP0 HR IH|c s t Hm HR IH]; simpl.
  - lia.
  - rewrite !length_app. specialize (HL P0 HP0). lia.
  - lia.
Qed.

Lemma Rep_longer (P : str) s t :
  Rep L new s t ->
  (forall P, In P L -> length P < length new) ->
  In P L -> nonempty P = true -> contains P s = true ->
  length s < length t.
Proof.
  intros HR HL HP HN.
  assert (HL' : forall P, In P L -> length P <= length new)
    by (intros Q HQ; specialize (HL Q HQ); lia).
  induction HR as [|P0 s t HP0 HR IH|c s t Hm HR IH]; intros Hs.
  - destruct P; discriminate.
  - rewrite !length_app. specialize (HL P0 HP0).
    pose proof (Rep_length s t HR HL'). lia.
  - rewrite contains_cons in Hs. apply orb_true_iff in Hs as [Hs | Hs].
    + assert (lang_match L (c :: s) = true) by (apply lang_match_In; eauto).
      congruence.
    + simpl. specialize (IH Hs). lia.
Qed.
End Scan.

(* ===================================================================== *)
(** * Properties of rule tables *)
(* ===================================================================== *)


Lemma uniform_nonempty (L : list str) P :
  uniform L = true -> In P L -> nonempty P = true.
Proof.
  intros U HP. destruct (uniform_width L P U HP) as [Hl Hpos].
  destruct P; [simpl in Hl; lia | reflexivity].
Qed.

Lemma apply_rules_cons r rs s :
  apply_rules (r :: rs) s = apply_rules rs (apply_rule r s).
Proof. reflexivity. Qed.

Lemma apply_rules_app rs1 rs2 s :
  apply_rules (rs1 ++ rs2) s = apply_rules rs2 (apply_rules rs1 s).
Proof. apply fold_left_app. Qed.

Lemma all_uniform_cons r rs :
  all_uniform (r :: rs) = true -> uniform (fst r) = true /\ all_uniform rs = true.
Proof. apply andb_true_iff. Qed.

(** A text without any matched string is a fixed point of the table. *)
Lemma apply_rules_id rs s :
  all_uniform rs = true ->
  (forall P, In P (langs rs) -> contains P s = false) ->
  apply_rules rs s = s.
Proof.
  revert s; induction rs as [|[L new] rs IH]; intros s U Hs; [reflexivity|].
  apply all_uniform_cons in U as [U1 U].
  rewrite apply_rules_cons.
  rewrite (Rep_id L new s _ (apply_rule_Rep L new s U1)).
  - apply IH; [exact U|]. intros P HP. apply Hs. unfold langs; simpl.
    apply in_or_app; now right.
  - intros P HP. apply Hs. unfold langs; simpl. apply in_or_app; now left.
Qed.

(** After a settled table has run, none of its matched strings occurs. *)
Lemma apply_rules_clean rs : forall seen s,
  all_uniform rs = true ->
  settles seen rs = true ->
  (forall P, In P seen -> contains P s = false) ->
  forall P, In P (seen ++ langs rs) -> contains P (apply_rules rs s) = false.
Proof.
  induction rs as [|[L new] rs IH]; intros seen s U HS Hs P HP.
  - unfold langs in HP; simpl in HP. rewrite app_nil_r in HP. now apply Hs.
  - apply all_uniform_cons in U as [U1 U]. simpl in U1.
    simpl in HS. apply andb_true_iff in HS as [HA HS].
    unfold apart_from in HA. rewrite forallb_forall in HA.
    rewrite apply_rules_cons.
    apply (IH (seen ++ L)); [exact U | exact HS | |].
    + intros Q HQ. apply (Rep_clean L new Q s); [now apply apply_rule_Rep | now apply HA |].
      apply in_app_or in HQ as [HQ | HQ]; [left; now apply Hs | now right].
    + unfold langs in *; simpl in HP. now rewrite <- app_assoc.
Qed.

(** Running a settled table twice is running it once. *)
Lemma apply_rules_idem rs s :
  all_uniform rs = true -> settles [] rs = true ->
  apply_rules rs (apply_rules rs s) = apply_rules rs s.
Proof.
  intros U HS. apply apply_rules_id; [exact U|].
  intros P HP. apply (apply_rules_clean rs [] s U HS); [intros ? []|exact HP].
Qed.

(** A string that overlaps nothing the table matches stays in the text. *)
Lemma apply_rules_keeps (R : str) rs s :
  all_uniform rs = true -> survives R rs = true ->
  contains R s = true -> contains R (apply_rules rs s) = true.
Proof.
  revert s; induction rs as [|[L new] rs IH]; intros s U HS Hs; [exact Hs|].
  apply all_uniform_cons in U as [U1 U]. simpl in U1.
  unfold survives, langs in HS. simpl in HS.
  rewrite forallb_app in HS. apply andb_true_iff in HS as [HL HS].
  rewrite forallb_forall in HL.
  rewrite apply_rules_cons. apply IH; [exact U | exact HS|].
  apply (Rep_keeps L new R s); [now apply apply_rule_Rep | exact HL | exact Hs].
Qed.

(** A rule whose matched strings reach it and whose replacement is left
    alone afterwards turns each occurrence of a matched string into its
    replacement. *)
Lemma apply_rules_carries pre r post (P : str) s :
  all_uniform (pre ++ r :: post) = true ->
  carries pre r post = true ->
  In P (fst r) -> contains P s = true ->
  contains (snd r) (apply_rules (pre ++ r :: post) s) = true.
Proof.
  intros U HC HP Hs. unfold all_uniform in U.
  rewrite forallb_app in U. apply andb_true_iff in U as [Upre U].
  apply all_uniform_cons in U as [Ur Upost].
  unfold carries in HC. apply andb_true_iff in HC as [Hpre Hpost].
  rewrite forallb_forall in Hpre.
  rewrite apply_rules_app, apply_rules_cons.
  apply apply_rules_keeps; [exact Upost | exact Hpost|].
  destruct r as [L new]; simpl in *.
  apply (Rep_fires L new P (apply_rules pre s));
    [now apply apply_rule_Rep | exact HP | now apply (uniform_nonempty L) |].
  apply apply_rules_keeps; [exact Upre | now apply Hpre | exact Hs].
Qed.

Lemma splits_spec rs : forall acc pre r post,
  In (pre, r, post) (splits acc rs) -> acc ++ rs = pre ++ r :: post.
Proof.
  induction rs as [|x rs IH]; intros acc pre r post; simpl; [tauto|].
  intros [H | H].
  - now injection H as -> -> ->.
  - apply IH in H. now rewrite <- app_assoc in H.
Qed.

Lemma splits_In rs : forall acc r,
  In r rs -> exists pre post, In (pre, r, post) (splits acc rs).
Proof.
  induction rs as [|x rs IH]; intros acc r; simpl; [tauto|].
  intros [<- | H].
  - exists acc, rs. now left.
  - destruct (IH (acc ++ [x]) r H) as (pre & post & Hin). exists pre, post. now right.
Qed.


Lemma apply_rule_length r s :
  uniform (fst r) = true -> grows r = true ->
  length s <= length (apply_rule r s)
  /\ (forall P, In P (fst r) -> contains P s = true ->
      length s < length (apply_rule r s)).
Proof.
  destruct r as [L new]; simpl. intros U G. unfold grows in G; simpl in G.
  rewrite forallb_forall in G.
  assert (G' : forall P, In P L -> length P < length new)
    by (intros P HP; apply Nat.ltb_lt; auto).
  pose proof (apply_rule_Rep L new s U) as HR. split.
  - apply (Rep_length L new _ _ HR). intros P HP. specialize (G' P HP). lia.
  - intros P HP Hs. apply (Rep_longer L new P _ _ HR G' HP); [|exact Hs].
    now apply (uniform_nonempty L).
Qed.

(* ===================================================================== *)
(** * The rewrite passes of the two scripts as rule tables *)
(* ===================================================================== *)

Lemma uniform_single (old : str) : nonempty old = true -> uniform [old] = true.
Proof.
  destruct old as [|c old]; [discriminate|]. intros _.
  unfold uniform, width. simpl hd. simpl forallb.
  rewrite Nat.eqb_refl. reflexivity.
Qed.

Lemma str_replace_rule (old new s : str) :
  nonempty old = true -> str_replace old new s = apply_rule ([old], new) s.
Proof.
  destruct old as [|c old]; [discriminate|]. intros _.
  unfold str_replace, apply_rule. cbn [fst snd].
  apply sub_from_ext. intros x. unfold lang_match. simpl existsb.
  now rewrite orb_false_r.
Qed.

Lemma try_pattern_fst (st : str * bool) (old new : str) :
  nonempty old = true ->
  fst (FixImports.try_pattern st (old, new)) = apply_rule ([old], new) (fst st).
Proof.
  intros HN. destruct st as [content changes_made]. simpl.
  destruct (contains old content) eqn:E; simpl.
  - now apply str_replace_rule.
  - symmetry. apply (Rep_id [old] new content).
    + apply apply_rule_Rep. now apply uniform_single.
    + intros P [<- | []]. exact E.
Qed.

Lemma fold_try_pattern_fst (ps : list (str * str)) : forall st,
  forallb (fun p => nonempty (fst p)) ps = true ->
  fst (fold_left FixImports.try_pattern ps st)
  = apply_rules (map (fun '(o, n) => ([o], n)) ps) (fst st).
Proof.
  induction ps as [|[o n] ps IH]; intros st H; [reflexivity|].
  simpl in H. apply andb_true_iff in H as [Ho H].
  simpl fold_left. rewrite IH by exact H.
  simpl map. rewrite apply_rules_cons. f_equal. now apply try_pattern_fst.
Qed.

Lemma rewrite_flat (content : str) :
  FixImports.rewrite content
  = fold_left FixImports.try_pattern import_patterns (content, false).
Proof.
  unfold FixImports.rewrite, import_patterns.
  generalize (content, false). generalize FixImports.IMPORT_MAP.
  induction l as [|[o n] l IH]; intros st; [reflexivity|].
  change (flat_map (fun '(a, b) => FixImports.patterns a b) ((o, n) :: l))
    with (FixImports.patterns o n
            ++ flat_map (fun '(a, b) => FixImports.patterns a b) l).
  rewrite fold_left_app. apply IH.
Qed.

Lemma import_patterns_nonempty :
  forallb (fun p => nonempty (fst p)) import_patterns = true.
Proof. vm_compute. reflexivity. Qed.

(** The text [fix_imports_in_file] computes is the rule table run over
    the content. *)
Lemma fix_imports_rewrite (content : str) :
  fst (FixImports.rewrite content) = apply_rules import_rules content.
Proof.
  rewrite rewrite_flat, fold_try_pattern_fst by apply import_patterns_nonempty.
  reflexivity.
Qed.

Lemma item_accepts_In (i : re_item) c :
  item_accepts i c = true <-> In c (item_chars i).
Proof.
  destruct i as [x | cs]; simpl.
  - rewrite Ascii.eqb_eq. intuition.
  - rewrite existsb_exists. split.
    + intros [x [Hx E]]. apply Ascii.eqb_eq in E as ->. exact Hx.
    + intros H. exists c. split; [exact H | apply Ascii.eqb_refl].
Qed.

Lemma In_expand_cons (i : re_item) (r : regex) P :
  In P (expand (i :: r)) <->
  exists c Q, P = c :: Q /\ In c (item_chars i) /\ In Q (expand r).
Proof.
  simpl. rewrite in_flat_map. split.
  - intros [c [Hc HP]]. apply in_map_iff in HP as [Q [<- HQ]]. eauto.
  - intros (c & Q & -> & Hc & HQ). exists c. split; [exact Hc|].
    apply in_map_iff. eauto.
Qed.

(** A regular expression of single-character items matches exactly its
    expansions. *)
Lemma re_match_expand (r : regex) : forall s,
  re_match r s = lang_match (expand r) s.
Proof.
  induction r as [|i r IH]; intros s; [reflexivity|].
  apply eq_true_iff_eq. rewrite lang_match_In. destruct s as [|c s].
  - simpl re_match. split; [discriminate|].
    intros [P [HP Hs]]. apply In_expand_cons in HP as (x & Q & -> & _).
    discriminate.
  - simpl re_match. rewrite andb_true_iff, item_accepts_In, IH, lang_match_In.
    split.
    + intros [Hc [Q [HQ Hs]]]. exists (c :: Q). split.
      * apply In_expand_cons. eauto.
      * simpl. now rewrite Ascii.eqb_refl.
    + intros [P [HP Hs]]. apply In_expand_cons in HP as (x & Q & -> & Hx & HQ).
      simpl in Hs. apply andb_true_iff in Hs as [E Hs].
      apply Ascii.eqb_eq in E as ->. eauto.
Qed.

Lemma re_sub_rule (r : regex) (repl s : str) :
  r <> [] ->
  width (expand r) = length r ->
  re_sub r repl s = apply_rule (expand r, repl) s.
Proof.
  destruct r as [|i r]; [congruence|]. intros _ Hw.
  unfold re_sub, apply_rule. cbn [fst snd]. rewrite Hw.
  apply sub_from_ext, re_match_expand.
Qed.

Lemma fixes_regular :
  forallb (fun '(r, _) => (0 <? length r) && (width (expand r) =? length r))
          FinalImportFix.FIXES = true.
Proof. vm_compute. reflexivity. Qed.

(** The text [fix_file] computes is the rule table run over the
    content. *)
Lemma fix_file_rewrite (content : str) :
  FinalImportFix.rewrite content = apply_rules fixes_rules content.
Proof.
  unfold FinalImportFix.rewrite, fixes_rules.
  pose proof fixes_regular as H. revert content H.
  generalize FinalImportFix.FIXES.
  induction l as [|[r repl] l IH]; intros content H; [reflexivity|].
  simpl in H. apply andb_true_iff in H as [Hr H].
  apply andb_true_iff in Hr as [H0 Hw].
  apply Nat.ltb_lt in H0. apply Nat.eqb_eq in Hw.
  simpl fold_left. simpl map. rewrite apply_rules_cons.
  rewrite re_sub_rule; [now apply IH | | exact Hw].
  destruct r; [simpl in H0; lia | discriminate].
Qed.

(** *** What the tables are like *)

Lemma import_rules_uniform : all_uniform import_rules = true.
Proof. vm_compute. reflexivity. Qed.

Lemma fixes_rules_uniform : all_uniform fixes_rules = true.
Proof. vm_compute. reflexivity. Qed.

Lemma import_rules_settle : settles [] import_rules = true.
Proof. vm_compute. reflexivity. Qed.

Lemma fixes_rules_settle : settles [] fixes_rules = true.
Proof. vm_compute. reflexivity. Qed.

Lemma import_rules_grow : forallb grows import_rules = true.
Proof. vm_compute. reflexivity. Qed.

(* ===================================================================== *)
(** * The rewrite passes *)
(* ===================================================================== *)

Lemma py_inj (a b : string) : py a = py b -> a = b.
Proof.
  unfold py. intros H.
  rewrite <- (string_of_list_ascii_of_string a), H.
  apply string_of_list_ascii_of_string.
Qed.

Lemma from_inj q q' (a b : string) :
  FixImports.from_ q a = FixImports.from_ q' b -> a = b.
Proof.
  unfold FixImports.from_. intros H.
  apply app_inv_head in H. simpl in H. injection H as _ H.
  apply app_inj_tail in H as [H _]. now apply py_inj.
Qed.

Lemma import_patterns_In old_path new_path q :
  In (old_path, new_path) FixImports.IMPORT_MAP -> In q [sq; dq] ->
  In (FixImports.from_ q old_path, FixImports.from_ q new_path) import_patterns.
Proof.
  intros H Hq. unfold import_patterns. apply in_flat_map.
  exists (old_path, new_path). split; [exact H|].
  simpl. destruct Hq as [<- | [<- | []]]; auto.
Qed.

Lemma import_rules_In old_path new_path q :
  In (old_path, new_path) FixImports.IMPORT_MAP -> In q [sq; dq] ->
  In ([FixImports.from_ q old_path], FixImports.from_ q new_path) import_rules.
Proof.
  intros H Hq. unfold import_rules. apply in_map_iff.
  exists (FixImports.from_ q old_path, FixImports.from_ q new_path).
  split; [reflexivity | now apply import_patterns_In].
Qed.

Lemma langs_In (rs : list rule) r P : In r rs -> In P (fst r) -> In P (langs rs).
Proof. intros Hr HP. unfold langs. apply in_flat_map. eauto. Qed.

(** The flag [changes_made] stays [False] only if no pattern was found,
    and then the content is the one that was read. *)
Lemma fold_try_pattern_false ps : forall content changes_made,
  snd (fold_left FixImports.try_pattern ps (content, changes_made)) = false ->
  fold_left FixImports.try_pattern ps (content, changes_made) = (content, false)
  /\ forall p, In p ps -> contains (fst p) content = false.
Proof.
  assert (T : forall ps c, snd (fold_left FixImports.try_pattern ps (c, true)) = true).
  { induction ps0 as [|[o n] ps0 IH]; intros c; [reflexivity|].
    simpl. destruct (contains o c); apply IH. }
  induction ps as [|[o n] ps IH]; intros content changes_made H.
  - simpl in *. subst. split; [reflexivity | intros ? []].
  - simpl in *. destruct (contains o content) eqn:E.
    + rewrite T in H. discriminate.
    + destruct (IH _ _ H) as [H1 H2]. split; [exact H1|].
      intros p [<- | Hp]; [exact E | now apply H2].
Qed.

Lemma fold_try_pattern_clean ps : forall content changes_made,
  (forall p, In p ps -> contains (fst p) content = false) ->
  fold_left FixImports.try_pattern ps (content, changes_made)
  = (content, changes_made).
Proof.
  induction ps as [|[o n] ps IH]; intros content changes_made H; [reflexivity|].
  pose proof (H (o, n) (or_introl eq_refl)) as E. simpl in E.
  simpl. rewrite E.
  apply IH. intros p Hp. apply H. now right.
Qed.

(** A content without any pattern of the table passes unchanged and
    unflagged. *)
Lemma fix_imports_rewrite_clean (content : str) :
  (forall p, In p import_patterns -> contains (fst p) content = false) ->
  FixImports.rewrite content = (content, false).
Proof. intros H. rewrite rewrite_flat. now apply fold_try_pattern_clean. Qed.

(** The flag is raised exactly when the content changes. *)
Lemma fix_imports_flag (content : str) :
  snd (FixImports.rewrite content) = false ->
  FixImports.rewrite content = (content, false).
Proof.
  rewrite rewrite_flat. intros H. now apply fold_try_pattern_false in H as [H _].
Qed.

Lemma fold_try_pattern_length ps : forall content changes_made,
  forallb (fun p => nonempty (fst p) && (length (fst p) <? length (snd p))) ps = true ->
  let st := fold_left FixImports.try_pattern ps (content, changes_made) in
  length content <= length (fst st)
  /\ (snd st = true -> changes_made = true \/ length content < length (fst st)).
Proof.
  induction ps as [|[o n] ps IH]; intros content changes_made H; simpl.
  - split; [lia | tauto].
  - simpl in H. apply andb_true_iff in H as [Hon H].
    apply andb_true_iff in Hon as [Ho Hn]. apply Nat.ltb_lt in Hn.
    destruct (contains o content) eqn:E.
    + destruct (IH (str_replace o n content) true H) as [H1 _].
      assert (length content < length (str_replace o n content)).
      { rewrite str_replace_rule by exact Ho.
        apply (apply_rule_length ([o], n)) with (P := o).
        - now apply uniform_single.
        - unfold grows; simpl. apply andb_true_iff. split; [now apply Nat.ltb_lt | reflexivity].
        - left; reflexivity.
        - exact E. }
      split; [lia | intros _; right; lia].
    + apply IH; exact H.
Qed.

Lemma import_patterns_grow :
  forallb (fun p => nonempty (fst p) && (length (fst p) <? length (snd p)))
          import_patterns = true.
Proof. vm_compute. reflexivity. Qed.

(** When [changes_made] is set, the content is longer than the one that
    was read. *)
Lemma fix_imports_flag_longer (content : str) :
  snd (FixImports.rewrite content) = true ->
  length content < length (fst (FixImports.rewrite content)).
Proof.
  rewrite rewrite_flat. intros H.
  destruct (fold_try_pattern_length import_patterns content false
              import_patterns_grow) as [_ H2].
  destruct (H2 H) as [? | ?]; [discriminate | assumption].
Qed.

(** No pattern of [IMPORT_MAP] occurs after a pass. *)
Lemma fix_imports_output_clean (content : str) p :
  In p import_patterns ->
  contains (fst p) (fst (FixImports.rewrite content)) = false.
Proof.
  intros Hp. rewrite fix_imports_rewrite.
  apply (apply_rules_clean import_rules [] content import_rules_uniform
           import_rules_settle); [intros ? []|].
  simpl. apply (langs_In import_rules ([fst p], snd p)); [|left; reflexivity].
  unfold import_rules. apply in_map_iff. exists p. now destruct p.
Qed.

(** No pattern of [FIXES] matches anywhere after a pass. *)
Lemma fix_file_output_clean (content : str) pattern replacement a tail :
  In (pattern, replacement) FinalImportFix.FIXES ->
  FinalImportFix.rewrite content = a ++ tail ->
  re_match pattern tail = false.
Proof.
  intros Hp Hs. destruct (re_match pattern tail) eqn:E; [|reflexivity].
  rewrite re_match_expand in E. apply lang_match_In in E as [P [HP HT]].
  assert (HC : contains P (FinalImportFix.rewrite content) = true).
  { rewrite Hs. apply contains_app_r. now apply contains_startswith. }
  rewrite fix_file_rewrite in HC.
  rewrite (apply_rules_clean fixes_rules [] content fixes_rules_uniform
             fixes_rules_settle) in HC; [discriminate | intros ? [] |].
  simpl. apply (langs_In fixes_rules (expand pattern, replacement)); [|exact HP].
  unfold fixes_rules. apply in_map_iff. now exists (pattern, replacement).
Qed.

(** A content in which no pattern of [FIXES] matches passes unchanged. *)
Lemma fix_file_rewrite_clean (content : str) :
  (forall pattern replacement a tail,
     In (pattern, replacement) FinalImportFix.FIXES ->
     content = a ++ tail -> re_match pattern tail = false) ->
  FinalImportFix.rewrite content = content.
Proof.
  intros H. rewrite fix_file_rewrite.
  apply apply_rules_id; [exact fixes_rules_uniform|].
  intros P HP. unfold langs in HP. apply in_flat_map in HP as [[L new] [Hr HP]].
  unfold fixes_rules in Hr. apply in_map_iff in Hr as [[pattern replacement] [E Hr]].
  injection E as <- <-. simpl in HP.
  destruct (contains P content) eqn:C; [|reflexivity].
  apply contains_spec in C as (a & b & ->).
  rewrite <- (H pattern replacement a (P ++ b) Hr eq_refl).
  rewrite re_match_expand. symmetry. apply lang_match_In.
  exists P. split; [exact HP | apply startswith_app].
Qed.

(** Each rule of a table that is not exempt turns what it matches into
    its replacement, whatever the other rules do. *)
Lemma table_carries (rs : list rule) (exempt : rule -> bool) :
  all_uniform rs = true ->
  forallb (fun '(pre, r, post) => exempt r || carries pre r post)
          (splits [] rs) = true ->
  forall r, In r rs -> exempt r = false ->
  forall (P s : str), In P (fst r) -> contains P s = true ->
  contains (snd r) (apply_rules rs s) = true.
Proof.
  intros U H r Hr Hx P s HP Hs.
  destruct (splits_In rs [] r Hr) as (pre & post & Hin).
  rewrite forallb_forall in H. specialize (H _ Hin). simpl in H.
  rewrite Hx in H. simpl in H.
  pose proof (splits_spec rs [] pre r post Hin) as E. simpl in E.
  rewrite E in *. now apply apply_rules_carries with (P := P).
Qed.

Lemma import_rules_carry :
  forallb (fun '(pre, r, post) => chained r || carries pre r post)
          (splits [] import_rules) = true.
Proof. vm_compute. reflexivity. Qed.

Lemma fixes_rules_carry :
  forallb (fun '(pre, r, post) => false || carries pre r post)
          (splits [] fixes_rules) = true.
Proof. vm_compute. reflexivity. Qed.

Lemma chained_old q (old_path : string) (new_pattern : str) :
  chained ([FixImports.from_ q old_path], new_pattern) = true ->
  old_path = "./user-history-utils"%string.
Proof.
  unfold chained. rewrite existsb_exists. intros [q' [_ H]].
  apply bool_decide_eq_true in H. cbn [fst] in H.
  apply (from_inj q q'). congruence.
Qed.

(** The strings a pattern of [FIXES] matches: the old path between any
    two quote characters. *)
Lemma expand_lit (s : string) (r : regex) :
  expand (FinalImportFix.lit s ++ r) = map (app (py s)) (expand r).
Proof.
  unfold FinalImportFix.lit. induction (py s) as [|c l IH]; simpl.
  - now rewrite map_id.
  - rewrite app_nil_r, IH, map_map. reflexivity.
Qed.

Lemma import_re_matches (old_path : string) q :
  In q [sq; dq] -> In (FixImports.from_ q old_path) (expand (import_re old_path)).
Proof.
  intros Hq. unfold import_re, FixImports.from_.
  rewrite expand_lit. apply in_map.
  change ([FinalImportFix.quote] ++ FinalImportFix.lit old_path ++ [FinalImportFix.quote])
    with (FinalImportFix.quote :: (FinalImportFix.lit old_path ++ [FinalImportFix.quote])).
  apply In_expand_cons. exists q, (py old_path ++ [q]).
  split; [reflexivity | split; [exact Hq|]].
  rewrite expand_lit. apply in_map.
  apply (In_expand_cons FinalImportFix.quote [] [q]). exists q, [].
  split; [reflexivity | split; [exact Hq | left; reflexivity]].
Qed.

Lemma FIXES_paths :
  FinalImportFix.FIXES
  = map (fun '(old_path, new_path) =>
           (import_re old_path, FixImports.from_ sq new_path)) fix_paths.
Proof. reflexivity. Qed.

(** The rule at position [k] of a table. *)
Lemma carries_at (rs : list rule) k r (P s : str) :
  all_uniform rs = true ->
  rs !! k = Some r ->
  carries (firstn k rs) r (skipn (S k) rs) = true ->
  In P (fst r) -> contains P s = true ->
  contains (snd r) (apply_rules rs s) = true.
Proof.
  intros U Hk HC HP Hs.
  assert (E : rs = firstn k rs ++ r :: skipn (S k) rs).
  { symmetry. now apply take_drop_middle. }
  rewrite E in U |- *. now apply apply_rules_carries with (P := P).
Qed.

(** The chain of the two user-history-utils rules, for either quote
    character. *)
Lemma user_history_chain q (content : str) :
  In q [sq; dq] ->
  contains (FixImports.from_ q "./user-history-utils") content = true ->
  contains (FixImports.from_ q "../user/user-history-utils")
           (fst (FixImports.rewrite content)) = true.
Proof.
  intros Hq Hc. rewrite fix_imports_rewrite.
  change import_rules with (firstn 40 import_rules ++ skipn 40 import_rules).
  rewrite apply_rules_app.
  assert (Q : q = sq \/ q = dq) by (destruct Hq as [<- | [<- | []]]; auto).
  assert (H1 : contains (FixImports.from_ q "./user/user-history-utils")
                 (apply_rules (firstn 40 import_rules) content) = true).
  { destruct Q as [-> | ->].
    - apply (carries_at (firstn 40 import_rules) 38
               ([FixImports.from_ sq "./user-history-utils"],
                FixImports.from_ sq "./user/user-history-utils")
               (FixImports.from_ sq "./user-history-utils"));
        [vm_compute; reflexivity | reflexivity | vm_compute; reflexivity
        | left; reflexivity | exact Hc].
    - apply (carries_at (firstn 40 import_rules) 39
               ([FixImports.from_ dq "./user-history-utils"],
                FixImports.from_ dq "./user/user-history-utils")
               (FixImports.from_ dq "./user-history-utils"));
        [vm_compute; reflexivity | reflexivity | vm_compute; reflexivity
        | left; reflexivity | exact Hc]. }
  destruct Q as [-> | ->].
  - apply (carries_at (skipn 40 import_rules) 0
             ([FixImports.from_ sq "./user/user-history-utils"],
              FixImports.from_ sq "../user/user-history-utils")
             (FixImports.from_ sq "./user/user-history-utils"));
      [vm_compute; reflexivity | reflexivity | vm_compute; reflexivity
      | left; reflexivity | exact H1].
  - apply (carries_at (skipn 40 import_rules) 1
             ([FixImports.from_ dq "./user/user-history-utils"],
              FixImports.from_ dq "../user/user-history-utils")
             (FixImports.from_ dq "./user/user-history-utils"));
      [vm_compute; reflexivity | reflexivity | vm_compute; reflexivity
      | left; reflexivity | exact H1].
Qed.

(** An entry of [IMPORT_MAP] other than the chained one rewrites its old
    path to its new path, in the quote style it was written in. *)
Lemma fix_imports_rewrites old_path new_path q (content : str) :
  In (old_path, new_path) FixImports.IMPORT_MAP ->
  old_path <> "./user-history-utils"%string ->
  In q [sq; dq] ->
  contains (FixImports.from_ q old_path) content = true ->
  contains (FixImports.from_ q new_path) (fst (FixImports.rewrite content)) = true.
Proof.
  intros Hin Hne Hq Hc. rewrite fix_imports_rewrite.
  apply (table_carries import_rules chained import_rules_uniform import_rules_carry
           ([FixImports.from_ q old_path], FixImports.from_ q new_path))
    with (P := FixImports.from_ q old_path).
  - now apply import_rules_In.
  - destruct (chained _) eqn:E; [|reflexivity].
    apply chained_old in E. contradiction.
  - left; reflexivity.
  - exact Hc.
Qed.

(** An entry of [FIXES] rewrites its old path, written in either quote
    style, to its new path in single quotes. *)
Lemma fix_file_rewrites old_path new_path q (content : str) :
  In (old_path, new_path) fix_paths ->
  In q [sq; dq] ->
  contains (FixImports.from_ q old_path) content = true ->
  contains (FixImports.from_ sq new_path) (FinalImportFix.rewrite content) = true.
Proof.
  intros Hin Hq Hc. rewrite fix_file_rewrite.
  apply (table_carries fixes_rules (fun _ => false) fixes_rules_uniform fixes_rules_carry
           (expand (import_re old_path), FixImports.from_ sq new_path))
    with (P := FixImports.from_ q old_path).
  - unfold fixes_rules. rewrite FIXES_paths, map_map. apply in_map_iff.
    exists (old_path, new_path). split; [reflexivity | exact Hin].
  - reflexivity.
  - now apply import_re_matches.
  - exact Hc.
Qed.

(* ===================================================================== *)
(** * The runners *)
(* ===================================================================== *)

Lemma bind_ext {A B} (c : M A) (k k' : A -> M B) w :
  (forall a w', k a w' = k' a w') -> bind c k w = bind c k' w.
Proof. intros E. unfold bind. destruct (c w) as [[a|e] w']; auto. Qed.

Lemma for_each_ext {A S} (xs : list A) (body body' : S -> A -> M S) :
  (forall acc x w, body acc x w = body' acc x w) ->
  forall acc w, for_each xs body acc w = for_each xs body' acc w.
Proof.
  intros E. induction xs as [|x xs IH]; intros acc w; [reflexivity|].
  simpl. unfold bind. rewrite E. destruct (body' acc x w) as [[a|e] w']; auto.
Qed.

Lemma for_each_app {A S} (xs ys : list A) (body : S -> A -> M S) acc w :
  for_each (xs ++ ys) body acc w
  = bind (for_each xs body acc) (for_each ys body) w.
Proof.
  revert acc w. induction xs as [|x xs IH]; intros acc w.
  - reflexivity.
  - simpl. unfold bind.
    destruct (body acc x w) as [[a|e] w']; [|reflexivity].
    rewrite IH. reflexivity.
Qed.

Lemma for_each_flat_map {A B S} (g : A -> list B) (xs : list A)
      (body : S -> B -> M S) acc w :
  for_each xs (fun acc x => for_each (g x) body acc) acc w
  = for_each (flat_map g xs) body acc w.
Proof.
  revert acc w. induction xs as [|x xs IH]; intros acc w; [reflexivity|].
  simpl flat_map. rewrite for_each_app. simpl for_each.
  apply bind_ext. intros a w'. apply IH.
Qed.

Lemma joinpath_assoc (a b c : str) :
  joinpath (joinpath a b) c = joinpath a (joinpath b c).
Proof. unfold joinpath. now rewrite <- !app_assoc. Qed.

Lemma relative_to_joinpath (root rel : str) w :
  relative_to (joinpath root rel) root w = (Ok rel, w).
Proof.
  unfold relative_to, joinpath.
  rewrite app_nil_r.
  replace (root ++ py "/" ++ rel) with ((root ++ py "/") ++ rel)
    by now rewrite <- app_assoc.
  rewrite startswith_app, drop_app_length. reflexivity.
Qed.

Section RunnerFacts.
Variable changed : str -> option str.
Variable errline : str -> exn -> str.
Variable okline : str -> str.
Variable skip : str -> bool.
Variable root : str.

Local Abbreviation judge_ := (judge changed skip).
Local Abbreviation events_ := (events_of errline okline root).
Local Abbreviation files_ := (files_after root).
Local Abbreviation trace_ := (trace changed errline okline skip root).
Local Abbreviation visit_ := (visit_with changed errline okline skip root).

(** One visit, in closed form. *)
Lemma visit_with_judge (fixed : nat) (rel : str) (w : world) :
  let v := judge_ (fs w) (joinpath root rel) in
  visit_ fixed (joinpath root rel) w
  = (Ok ((if is_rewritten v then 1 else 0) + fixed),
     World (files_ rel v (fs w)) (log w ++ events_ rel v)).
Proof.
  destruct w as [m l]. unfold visit_with, judge.
  simpl fs; simpl log.
  destruct (skip (joinpath root rel)) eqn:Hs.
  { simpl. unfold ret. now rewrite app_nil_r. }
  unfold fix_with, try_except, bind, read_text, write_text, print, ret, emit.
  simpl fs; simpl log.
  destruct (m !! joinpath root rel) as [f|] eqn:Hf; simpl.
  2:{ now rewrite <- app_assoc. }
  destruct (may_read f) eqn:Hr; simpl.
  2:{ now rewrite <- app_assoc. }
  destruct (data f) as [s|r]; simpl.
  2:{ now rewrite <- app_assoc. }
  destruct (changed s) as [c|]; simpl; [|reflexivity].
  rewrite Hf. destruct (may_write f); simpl.
  - rewrite relative_to_joinpath. simpl.
    rewrite <- !app_assoc. simpl. rewrite Nat.add_comm, Hr. reflexivity.
  - now rewrite <- !app_assoc.
Qed.

(** A whole loop, in closed form: it never raises. *)
Lemma run_trace (rels : list str) : forall (fixed : nat) (w : world),
  for_each (map (joinpath root) rels) visit_ fixed w
  = (Ok (fixed + snd (trace_ rels (fs w))),
     World (snd (fst (trace_ rels (fs w))))
           (log w ++ fst (fst (trace_ rels (fs w))))).
Proof.
  induction rels as [|rel rels IH]; intros fixed w.
  - simpl. unfold ret. rewrite app_nil_r, Nat.add_0_r. now destruct w.
  - simpl for_each. unfold bind. rewrite visit_with_judge. rewrite IH.
    simpl fs; simpl log. simpl trace.
    destruct (trace_ rels _) as [[evs m'] n]. simpl.
    rewrite <- app_assoc. f_equal. f_equal. lia.
Qed.

Lemma judge_ext (m1 m2 : gmap str file) (p : str) :
  m1 !! p = m2 !! p -> judge_ m1 p = judge_ m2 p.
Proof. intros E. unfold judge. now rewrite E. Qed.

Lemma files_after_other (rel : str) (v : verdict) (m : gmap str file) (p : str) :
  joinpath root rel <> p -> files_ rel v m !! p = m !! p.
Proof.
  intros Hne. destruct v; simpl; try reflexivity.
  now apply lookup_insert_ne.
Qed.

Lemma files_after_kept (rel : str) (v : verdict) (m : gmap str file) :
  is_rewritten v = false -> files_ rel v m = m.
Proof. now destruct v. Qed.

Lemma joinpath_inj (a b : str) : joinpath root a = joinpath root b -> a = b.
Proof.
  unfold joinpath. intros H. apply app_inv_head in H. now injection H.
Qed.



(** A path whose visits do not end in a rewrite keeps its file and is
    never written. *)
Lemma trace_stable (rels : list str) (p : str) : forall m : gmap str file,
  is_rewritten (judge_ m p) = false ->
  snd (fst (trace_ rels m)) !! p = m !! p
  /\ forall c, ~ In (Write p c) (fst (fst (trace_ rels m))).
Proof.
  induction rels as [|r rels IH]; intros m Hp; [simpl; auto|].
  simpl. destruct (trace _ _ _ _ _ rels _) as [[evs m'] n] eqn:E. simpl.
  destruct (decide (joinpath root r = p)) as [Heq | Hne].
  - subst p. rewrite files_after_kept in E by exact Hp.
    specialize (IH m Hp). rewrite E in IH. simpl in IH.
    destruct IH as [IH1 IH2]. split; [exact IH1|].
    intros c Hin. apply in_app_or in Hin as [Hin | Hin]; [|now apply (IH2 c)].
    destruct (judge_ m (joinpath root r)) as [| |c'|x []]; simpl in *;
      try discriminate; intuition discriminate.
  - assert (Hp' : is_rewritten (judge_ (files_ r (judge_ m (joinpath root r)) m) p) = false).
    { rewrite (judge_ext _ m); [exact Hp | now apply files_after_other]. }
    specialize (IH _ Hp'). rewrite E in IH. simpl in IH.
    destruct IH as [IH1 IH2]. split.
    + rewrite IH1. now apply files_after_other.
    + intros c Hin. apply in_app_or in Hin as [Hin | Hin]; [|now apply (IH2 c)].
      destruct (judge_ m (joinpath root r)) as [| |c'|x []]; simpl in Hin;
        intuition congruence.
Qed.

(** A path that is skipped whenever it comes up, or never comes up, is
    neither opened nor written. *)
Lemma trace_untouched (rels : list str) (p : str) : forall m : gmap str file,
  (forall rel, In rel rels -> joinpath root rel = p -> skip p = true) ->
  forall e, In e (fst (fst (trace_ rels m))) ->
  forall md c, e <> Open p md /\ e <> Write p c.
Proof.
  induction rels as [|r rels IH]; intros m Hp e Hin md c; [destruct Hin|].
  simpl in Hin. destruct (trace _ _ _ _ _ rels _) as [[evs m'] n] eqn:E.
  simpl in Hin. apply in_app_or in Hin as [Hin | Hin].
  - destruct (decide (joinpath root r = p)) as [Heq | Hne].
    + pose proof (Hp r (or_introl eq_refl) Heq) as Hs.
      unfold judge in Hin. rewrite Heq, Hs in Hin. destruct Hin.
    + destruct (judge_ m (joinpath root r)) as [| |c'|x []]; simpl in Hin;
        intuition (subst; congruence).
  - apply (IH (files_ r (judge_ m (joinpath root r)) m)).
    + intros rel Hrel. apply Hp. now right.
    + now rewrite E.
Qed.

(** A path whose visit fails has the failure printed. *)
Lemma trace_failed (rels : list str) : forall (m : gmap str file) (rel : str) e writing,
  In rel rels ->
  judge_ m (joinpath root rel) = Failed e writing ->
  In (Print Stdout (errline (joinpath root rel) e)) (fst (fst (trace_ rels m))).
Proof.
  induction rels as [|r rels IH]; intros m rel e writing Hin Hj; [destruct Hin|].
  simpl. destruct (trace _ _ _ _ _ rels _) as [[evs m'] n] eqn:E. simpl.
  apply in_or_app.
  destruct (decide (r = rel)) as [-> | Hne].
  - left. rewrite Hj. destruct writing; simpl; auto.
  - destruct Hin as [-> | Hin]; [contradiction|]. right.
    assert (Hj' : judge_ (files_ r (judge_ m (joinpath root r)) m) (joinpath root rel)
                  = Failed e writing).
    { rewrite (judge_ext _ m); [exact Hj|]. apply files_after_other.
      intros H. now apply joinpath_inj in H. }
    specialize (IH _ rel e writing Hin Hj'). now rewrite E in IH.
Qed.

(** The count is the number of files written. *)

Lemma trace_count (rels : list str) : forall m : gmap str file,
  snd (trace_ rels m) = length (filter is_write (fst (fst (trace_ rels m)))).
Proof.
  induction rels as [|r rels IH]; intros m; [reflexivity|].
  simpl. specialize (IH (files_ r (judge_ m (joinpath root r)) m)).
  destruct (trace _ _ _ _ _ rels _) as [[evs m'] n]. simpl in *.
  rewrite filter_app, length_app, <- IH.
  destruct (judge_ m (joinpath root r)) as [| |c'|x []]; reflexivity.
Qed.

(** A path whose visit does not end in a rewrite is not reported. *)
Lemma trace_unreported (rels : list str) (rel : str) : forall m : gmap str file,
  (forall a b, okline a = okline b -> a = b) ->
  (forall a p e, okline a <> errline p e) ->
  is_rewritten (judge_ m (joinpath root rel)) = false ->
  ~ In (Print Stdout (okline rel)) (fst (fst (trace_ rels m))).
Proof.
  intros m Hinj Hne. revert m.
  induction rels as [|r rels IH]; intros m Hp Hin; [destruct Hin|].
  simpl in Hin. destruct (trace _ _ _ _ _ rels _) as [[evs m'] n] eqn:E.
  simpl in Hin. apply in_app_or in Hin as [Hin | Hin].
  - destruct (decide (r = rel)) as [-> | Hr].
    + destruct (judge_ m (joinpath root rel)) as [| |c'|x []]; simpl in *;
        try discriminate;
        repeat (destruct Hin as [Hin | Hin]; try discriminate);
        try (injection Hin as Hin; symmetry in Hin; now apply Hne in Hin);
        try destruct Hin.
    + destruct (judge_ m (joinpath root r)) as [| |c'|x []]; simpl in *;
        repeat (destruct Hin as [Hin | Hin]; try discriminate);
        try (injection Hin as Hin; first [ now apply Hinj in Hin
                                         | symmetry in Hin; now apply Hne in Hin ]);
        try destruct Hin.
  - destruct (decide (r = rel)) as [-> | Hr].
    + rewrite files_after_kept in E by exact Hp.
      apply (IH m Hp). now rewrite E.
    + apply (IH (files_ r (judge_ m (joinpath root r)) m)); [|now rewrite E].
      rewrite (judge_ext _ m); [exact Hp|]. apply files_after_other.
      intros H. now apply joinpath_inj in H.
Qed.
End RunnerFacts.

(* ===================================================================== *)
(** * The two scripts as instances of the runner *)
(* ===================================================================== *)

Lemma fix_imports_in_file_with (filepath : str) (w : world) :
  FixImports.fix_imports_in_file filepath w
  = fix_with import_changed import_errline filepath w.
Proof.
  unfold FixImports.fix_imports_in_file, fix_with, try_except, bind, import_changed.
  destruct (read_text filepath w) as [[s|e] w1]; [|reflexivity].
  destruct (FixImports.rewrite s) as [c []]; reflexivity.
Qed.

Lemma fix_file_with (filepath : str) (w : world) :
  FinalImportFix.fix_file filepath w
  = fix_with fixes_changed fixes_errline filepath w.
Proof.
  unfold FinalImportFix.fix_file, fix_with, try_except, bind, fixes_changed.
  destruct (read_text filepath w) as [[s|e] w1]; [|reflexivity].
  destruct (negb _); reflexivity.
Qed.

Lemma fixes_visit_with (fixed : nat) (filepath : str) (w : world) :
  FinalImportFix.visit fixed filepath w
  = visit_with fixes_changed fixes_errline fixes_okline FinalImportFix.skipped
               FinalImportFix.ROOT fixed filepath w.
Proof.
  unfold FinalImportFix.visit, visit_with.
  destruct (FinalImportFix.skipped filepath); [reflexivity|].
  unfold bind. now rewrite fix_file_with.
Qed.

Lemma import_visit_with (total fixed : nat) (filepath : str) (w : world) :
  FixImports.visit (total, fixed) filepath w
  = match visit_with import_changed import_errline import_okline
                     (fun _ => false) FixImports.root fixed filepath w with
    | (Ok fixed', w') => (Ok (total + 1, fixed'), w')
    | (Raised e, w') => (Raised e, w')
    end.
Proof.
  unfold FixImports.visit, visit_with. unfold bind.
  rewrite fix_imports_in_file_with.
  destruct (fix_with _ _ filepath w) as [[[]|e] w1]; try reflexivity.
  destruct (relative_to filepath FixImports.root w1) as [[rel|e] w2]; reflexivity.
Qed.

(** The innermost loop of fix-imports.py over paths below [root]. *)
Lemma import_loop (rels : list str) : forall (total fixed : nat) (w : world),
  for_each (map (joinpath FixImports.root) rels) FixImports.visit (total, fixed) w
  = (Ok (total + length rels, fixed + snd (import_trace rels (fs w))),
     World (snd (fst (import_trace rels (fs w))))
           (log w ++ fst (fst (import_trace rels (fs w))))).
Proof.
  induction rels as [|rel rels IH]; intros total fixed w.
  - simpl. unfold ret. rewrite app_nil_r, !Nat.add_0_r. now destruct w.
  - cbn [for_each map]. unfold bind. rewrite import_visit_with, visit_with_judge.
    rewrite IH. cbn [fs log trace].
    destruct (trace _ _ _ _ _ rels _) as [[evs m'] n]. simpl.
    rewrite <- app_assoc. f_equal. f_equal. f_equal; lia.
Qed.

Lemma map_flat_map_joinpath (a : str) {A} (g : A -> list str) (xs : list A) :
  flat_map (fun x => map (joinpath a) (g x)) xs = map (joinpath a) (flat_map g xs).
Proof.
  induction xs as [|x xs IH]; [reflexivity|].
  simpl. now rewrite map_app, IH.
Qed.

(** The three loops of fix-imports.py visit [import_traversal]. *)
Lemma import_loops (t : tree) (counts : nat * nat) (w : world) :
  for_each FixImports.dirs_to_scan
    (fun counts dir_name =>
       let dir_path := joinpath FixImports.root dir_name in
       if negb (exists_ t dir_path) then ret counts
       else
         for_each (map py ["*.ts"; "*.tsx"]%string)
           (fun counts ext =>
              for_each (map (joinpath dir_path) (rglob t dir_path ext))
                FixImports.visit counts)
           counts)
    counts w
  = for_each (map (joinpath FixImports.root) (import_traversal t))
             FixImports.visit counts w.
Proof.
  unfold import_traversal. rewrite <- map_flat_map_joinpath.
  rewrite <- for_each_flat_map. apply for_each_ext.
  intros acc dir_name w'. cbv zeta.
  destruct (negb (exists_ t (joinpath FixImports.root dir_name))); [reflexivity|].
  rewrite <- map_flat_map_joinpath, <- for_each_flat_map.
  apply for_each_ext. intros acc2 ext w2.
  rewrite map_map.
  rewrite (map_ext _ _ (fun r => joinpath_assoc FixImports.root dir_name r)).
  reflexivity.
Qed.

(** fix-imports.py from start to end. *)
Lemma import_main_trace (t : tree) (w : world) :
  FixImports.main t w
  = (Ok tt,
     World (snd (fst (import_trace (import_traversal t) (fs w))))
           (log w ++ fst (fst (import_trace (import_traversal t) (fs w)))
              ++ [Print Stdout
                    (import_summary (snd (import_trace (import_traversal t) (fs w)))
                                    (length (import_traversal t)))])).
Proof.
  unfold FixImports.main. unfold bind at 1.
  rewrite import_loops, import_loop. unfold print, emit. simpl.
  now rewrite <- app_assoc.
Qed.

Lemma fixes_loops (t : tree) (fixed : nat) (w : world) :
  for_each (map py ["*.ts"; "*.tsx"]%string)
    (fun fixed ext =>
       for_each (map (joinpath FinalImportFix.ROOT) (rglob t FinalImportFix.ROOT ext))
                FinalImportFix.visit fixed)
    fixed w
  = for_each (map (joinpath FinalImportFix.ROOT) (fixes_traversal t))
             (visit_with fixes_changed fixes_errline fixes_okline
                         FinalImportFix.skipped FinalImportFix.ROOT) fixed w.
Proof.
  unfold fixes_traversal. rewrite <- map_flat_map_joinpath.
  rewrite <- for_each_flat_map. apply for_each_ext.
  intros acc ext w'. apply for_each_ext. intros. apply fixes_visit_with.
Qed.

(** final-import-fix.py from start to end. *)
Lemma fixes_main_trace (t : tree) (w : world) :
  FinalImportFix.main t w
  = (Ok tt,
     World (snd (fst (fixes_trace (fixes_traversal t) (fs w))))
           (log w ++ fst (fst (fixes_trace (fixes_traversal t) (fs w)))
              ++ [Print Stdout
                    (fixes_summary (snd (fixes_trace (fixes_traversal t) (fs w))))])).
Proof.
  unfold FinalImportFix.main. unfold bind at 1.
  rewrite fixes_loops, run_trace. unfold print, emit. simpl.
  now rewrite <- app_assoc.
Qed.

(* ===================================================================== *)
(** * Files, events and the two scripts *)
(* ===================================================================== *)

Lemma re_search_spec (r : regex) (s : str) :
  re_search r s = false ->
  forall a tail, s = a ++ tail -> re_match r tail = false.
Proof.
  induction s as [|c s IH]; simpl; intros H a tail E.
  - apply orb_false_iff in H as [H _].
    destruct a; [|discriminate]. simpl in E. now subst.
  - apply orb_false_iff in H as [H1 H2].
    destruct a as [|x a]; simpl in E.
    + now subst.
    + injection E as -> ->. now apply (IH H2 a).
Qed.

Lemma no_import_pattern_patterns (content : str) :
  no_import_pattern content ->
  forall p, In p import_patterns -> contains (fst p) content = false.
Proof.
  intros H p Hp. unfold import_patterns in Hp.
  apply in_flat_map in Hp as [[o n] [Hin Hp]].
  destruct Hp as [<- | [<- | []]]; simpl; apply (H o n); simpl; auto.
Qed.

Lemma no_import_pattern_check (content : str) :
  forallb (fun p => negb (contains (fst p) content)) import_patterns = true ->
  no_import_pattern content.
Proof.
  rewrite forallb_forall. intros H o n q Hin Hq.
  specialize (H _ (import_patterns_In o n q Hin Hq)). simpl in H.
  now apply negb_true_iff in H.
Qed.

Lemma import_changed_clean (content : str) :
  no_import_pattern content -> import_changed content = None.
Proof.
  intros H. unfold import_changed.
  rewrite fix_imports_rewrite_clean; [reflexivity|].
  now apply no_import_pattern_patterns.
Qed.

Lemma fixes_rewrite_clean (content : str) :
  no_fixes_match content -> FinalImportFix.rewrite content = content.
Proof.
  intros H. apply fix_file_rewrite_clean.
  intros pattern replacement a tail Hin E.
  now apply (re_search_spec pattern content (H _ _ Hin) a tail).
Qed.

Lemma fixes_changed_clean (content : str) :
  no_fixes_match content -> fixes_changed content = None.
Proof.
  intros H. unfold fixes_changed. rewrite fixes_rewrite_clean by exact H.
  unfold FinalImportFix.str_eqb. now rewrite bool_decide_eq_true_2.
Qed.

(** What either script writes back differs from what it read. *)
Lemma import_changed_differs (content c : str) :
  import_changed content = Some c ->
  c = fst (FixImports.rewrite content) /\ c <> content.
Proof.
  unfold import_changed. intros H.
  pose proof (fix_imports_flag_longer content) as L.
  destruct (FixImports.rewrite content) as [c' []]; [|discriminate].
  injection H as <-. simpl in *. split; [reflexivity|].
  intros ->. specialize (L eq_refl). lia.
Qed.

Lemma fixes_changed_differs (content c : str) :
  fixes_changed content = Some c ->
  c = FinalImportFix.rewrite content /\ c <> content.
Proof.
  unfold fixes_changed, FinalImportFix.str_eqb. intros H.
  destruct (bool_decide _) eqn:E; simpl in H; [discriminate|].
  injection H as <-. split; [reflexivity|].
  now apply bool_decide_eq_false in E.
Qed.

Lemma events_emit {A} (c : M A) (w : world) r m evs :
  c w = (r, World m (log w ++ evs)) -> events c w = evs.
Proof. intros E. unfold events. rewrite E. simpl. apply drop_app_length. Qed.

Section FixWith.
Variable changed : str -> option str.
Variable errline : str -> exn -> str.

(** A readable file for which nothing is to be written back is opened
    for reading and nothing else happens. *)
Lemma fix_with_unchanged (w : world) (path : str) (f : file) (s : str) :
  fs w !! path = Some f -> may_read f = true -> data f = Text s ->
  changed s = None ->
  fix_with changed errline path w = (Ok false, emit (Open path R) w).
Proof.
  intros Hf Hr Hd Hc.
  unfold fix_with, try_except, bind, read_text.
  now rewrite Hf, Hr, Hd, Hc.
Qed.


(** Whatever is written is what [changed] asked for. *)
Lemma fix_with_write (w : world) (path : str) (f : file) (s c : str) :
  fs w !! path = Some f -> data f = Text s ->
  In (Write path c) (events (fix_with changed errline path) w) ->
  changed s = Some c.
Proof.
  intros Hf Hd. unfold events, fix_with, try_except, bind, read_text,
    write_text, print, ret, emit.
  rewrite Hf, Hd. simpl.
  destruct (may_read f); simpl.
  2:{ rewrite <- app_assoc, drop_app_length. simpl. intuition discriminate. }
  destruct (changed s) as [c'|]; simpl.
  2:{ rewrite drop_app_length. simpl. intuition discriminate. }
  rewrite Hf. destruct (may_write f); simpl.
  - rewrite <- !app_assoc, drop_app_length. simpl.
    intros [H | [H | [H | []]]]; try discriminate. now injection H as ->.
  - rewrite <- !app_assoc, drop_app_length. simpl. intuition discriminate.
Qed.

(** When reading or writing raises, the visit is judged as failed. *)
Lemma raises_judge skip (w : world) (path : str) (e : exn) :
  skip path = false ->
  raises changed w path e ->
  exists writing, judge changed skip (fs w) path = Failed e writing.
Proof.
  intros Hs [H | (s & c & H1 & H2 & H3)]; unfold judge; rewrite Hs;
    unfold read_text, write_text in *.
  - destruct (fs w !! path) as [f|]; simpl in H.
    + destruct (may_read f); simpl in H.
      * destruct (data f); simpl in H; [discriminate|].
        injection H as <-. eauto.
      * injection H as <-. eauto.
    + injection H as <-. eauto.
  - destruct (fs w !! path) as [f|]; simpl in *; [|discriminate].
    destruct (may_read f); simpl in *; [|discriminate].
    destruct (data f); simpl in *; [|discriminate].
    injection H1 as ->. rewrite H2.
    destruct (may_write f); simpl in *; [discriminate|].
    injection H3 as <-. eauto.
Qed.
End FixWith.

Lemma import_okline_inj (a b : str) : import_okline a = import_okline b -> a = b.
Proof. apply app_inv_head. Qed.

Lemma fixes_okline_inj (a b : str) : fixes_okline a = fixes_okline b -> a = b.
Proof. apply app_inv_head. Qed.

Lemma import_okline_errline (a p : str) e : import_okline a <> import_errline p e.
Proof. discriminate. Qed.

Lemma fixes_okline_errline (a p : str) e : fixes_okline a <> fixes_errline p e.
Proof. discriminate. Qed.

(** The events of the two scripts. *)
Lemma import_main_events (t : tree) (w : world) :
  events (FixImports.main t) w
  = fst (fst (import_trace (import_traversal t) (fs w)))
      ++ [Print Stdout
            (import_summary (snd (import_trace (import_traversal t) (fs w)))
                            (length (import_traversal t)))].
Proof. eapply events_emit. apply import_main_trace. Qed.

Lemma fixes_main_events (t : tree) (w : world) :
  events (FinalImportFix.main t) w
  = fst (fst (fixes_trace (fixes_traversal t) (fs w)))
      ++ [Print Stdout
            (fixes_summary (snd (fixes_trace (fixes_traversal t) (fs w))))].
Proof. eapply events_emit. apply fixes_main_trace. Qed.

(** A segment of a path is a substring of it. *)
Lemma split_on_contains sep (s : str) : forall (cur seg : str),
  In seg (split_on sep cur s) -> exists a b, rev cur ++ s = a ++ seg ++ b.
Proof.
  induction s as [|c s IH]; intros cur seg H; simpl in H.
  - destruct H as [<- | []]. exists [], []. now rewrite !app_nil_r.
  - destruct (Ascii.eqb c sep).
    + destruct H as [<- | H].
      * exists [], (c :: s). reflexivity.
      * apply IH in H as (a & b & E). simpl in E.
        exists (rev cur ++ c :: a), b. rewrite E, <- app_assoc. reflexivity.
    + apply IH in H as (a & b & E). exists a, b. rewrite <- E.
      simpl. now rewrite <- app_assoc.
Qed.

Lemma segments_contains (p seg : str) :
  In seg (segments p) -> contains seg p = true.
Proof.
  intros H. apply split_on_contains in H as (a & b & E).
  apply contains_spec. eauto.
Qed.

(** Membership of a given entry in one of the tables. *)
Ltac in_table := repeat first [ left; reflexivity | right ].

(* ===================================================================== *)
(** * Runs of the two scripts *)
(* ===================================================================== *)

Lemma events_ext {A} (c c' : M A) (w : world) :
  c w = c' w -> events c w = events c' w.
Proof. unfold events. now intros ->. Qed.

Lemma import_summary_not_okline (n k : nat) (rel : str) :
  Print Stdout (import_okline rel) <> Print Stdout (import_summary n k).
Proof. discriminate. Qed.

Lemma fixes_summary_not_okline (n : nat) (rel : str) :
  Print Stdout (fixes_okline rel) <> Print Stdout (fixes_summary n).
Proof. discriminate. Qed.

(** A readable file that needs no rewrite is judged unchanged. *)
Lemma judge_unchanged (changed : str -> option str) (skip : str -> bool)
      (m : gmap str file) (p : str) (f : file) (s : str) :
  m !! p = Some f -> may_read f = true -> data f = Text s ->
  changed s = None ->
  is_rewritten (judge changed skip m p) = false.
Proof.
  intros Hf Hr Hd Hc. unfold judge. destruct (skip p); [reflexivity|].
  now rewrite Hf, Hr, Hd, Hc.
Qed.

Lemma no_fixes_match_check (content : str) :
  forallb (fun '(pattern, _) => negb (re_search pattern content))
          FinalImportFix.FIXES = true ->
  no_fixes_match content.
Proof.
  rewrite forallb_forall. intros H pattern replacement Hin.
  specialize (H _ Hin). simpl in H. now apply negb_true_iff in H.
Qed.

(** A path that final-import-fix.py skips is neither opened nor
    written, and its file stays as it was. *)
Lemma skipped_path_untouched (t : tree) (w : world) (p : str) :
  FinalImportFix.skipped p = true ->
  (forall e, In e (events (FinalImportFix.main t) w) ->
             forall md c, e <> Open p md /\ e <> Write p c)
  /\ fs (snd (FinalImportFix.main t w)) !! p = fs w !! p.
Proof.
  intros Hs. split.
  - intros e Hin md c. rewrite fixes_main_events in Hin.
    apply in_app_or in Hin as [Hin | [<- | []]]; [|split; discriminate].
    revert e Hin md c. apply trace_untouched. intros; exact Hs.
  - rewrite fixes_main_trace. simpl.
    apply trace_stable. unfold judge. now rewrite Hs.
Qed.

(* ===================================================================== *)
(** * The claims *)
(* ===================================================================== *)

(** C1 (as stated, refuted): the claim adds to idempotence that no rule
    matches any new-path string that a rule has produced.  In
    [IMPORT_MAP] the rule for ./user/user-history-utils matches the string
    that the rule for ./user-history-utils produces. *)
Lemma rule_matches_produced_new_path :
  ~ ((forall content,
        fst (FixImports.rewrite (fst (FixImports.rewrite content)))
        = fst (FixImports.rewrite content))
     /\ (forall old1 new1 old2 new2 q,
           In (old1, new1) FixImports.IMPORT_MAP ->
           In (old2, new2) FixImports.IMPORT_MAP ->
           In q [sq; dq] ->
           contains (FixImports.from_ q old2)
                    (str_replace (FixImports.from_ q old1) (FixImports.from_ q new1)
                                 (FixImports.from_ q old1)) = false)).
Proof.
  intros [_ H].
  specialize (H "./user-history-utils" "./user/user-history-utils"
                "./user/user-history-utils" "../user/user-history-utils" sq)%string.
  assert (E : true = false); [|discriminate].
  rewrite <- H; [vm_compute; reflexivity | | | left; reflexivity].
  - in_table.
  - in_table.
Qed.

(** C1 (amended): for every file content, running the rule set of either
    script on its own output gives the output back, and the second pass
    raises no [changes_made]; no rule of the script matches anywhere in
    the output of a pass. *)
Theorem rewrite_pass_idempotent (content : str) :
  FixImports.rewrite (fst (FixImports.rewrite content))
  = (fst (FixImports.rewrite content), false)
  /\ FinalImportFix.rewrite (FinalImportFix.rewrite content)
     = FinalImportFix.rewrite content
  /\ no_import_pattern (fst (FixImports.rewrite content))
  /\ no_fixes_match (FinalImportFix.rewrite content).
Proof.
  assert (H1 : no_import_pattern (fst (FixImports.rewrite content))).
  { intros o n q Hin Hq.
    apply (fix_imports_output_clean content
             (FixImports.from_ q o, FixImports.from_ q n)).
    now apply import_patterns_In. }
  assert (H2 : no_fixes_match (FinalImportFix.rewrite content)).
  { intros pattern replacement Hin.
    destruct (re_search pattern _) eqn:E; [|reflexivity].
    exfalso. clear H1. revert E.
    assert (G : forall s a, FinalImportFix.rewrite content = a ++ s ->
                            re_search pattern s = false).
    { induction s as [|c s IH]; intros a Ha; simpl.
      - now rewrite (fix_file_output_clean content pattern replacement a [] Hin Ha).
      - rewrite (fix_file_output_clean content pattern replacement a (c :: s) Hin Ha).
        simpl. apply (IH (a ++ [c])). now rewrite <- app_assoc. }
    now rewrite (G _ [] eq_refl). }
  split; [|split; [|split]]; try assumption.
  - apply fix_imports_rewrite_clean. now apply no_import_pattern_patterns.
  - now apply fixes_rewrite_clean.
Qed.

(** C2: a readable file in whose content no pattern of the script is
    found is read and nothing else: the per-file function returns False
    and adds only the opening for reading to the log, a whole run leaves
    the file as it was, never writes it and does not print it as fixed.
    Whatever either per-file function writes differs from the content it
    read. *)
Theorem unmatched_file_left_alone
        (w : world) (filepath : str) (f : file) (content : str) :
  fs w !! filepath = Some f -> may_read f = true -> data f = Text content ->
  (no_import_pattern content ->
     FixImports.rewrite content = (content, false)
     /\ FixImports.fix_imports_in_file filepath w
        = (Ok false, emit (Open filepath R) w)
     /\ forall t rel, filepath = joinpath FixImports.root rel ->
          fs (snd (FixImports.main t w)) !! filepath = Some f
          /\ (forall c, ~ In (Write filepath c) (events (FixImports.main t) w))
          /\ ~ In (Print Stdout (py "✓ Fixed: " ++ rel))
                  (events (FixImports.main t) w))
  /\ (no_fixes_match content ->
        FinalImportFix.rewrite content = content
        /\ FinalImportFix.fix_file filepath w
           = (Ok false, emit (Open filepath R) w)
        /\ forall t rel, filepath = joinpath FinalImportFix.ROOT rel ->
             fs (snd (FinalImportFix.main t w)) !! filepath = Some f
             /\ (forall c, ~ In (Write filepath c) (events (FinalImportFix.main t) w))
             /\ ~ In (Print Stdout (py "✓ " ++ rel))
                     (events (FinalImportFix.main t) w))
  /\ (forall c,
        In (Write filepath c)
           (events (FixImports.fix_imports_in_file filepath) w) ->
        c = fst (FixImports.rewrite content) /\ c <> content)
  /\ (forall c,
        In (Write filepath c) (events (FinalImportFix.fix_file filepath) w) ->
        c = FinalImportFix.rewrite content /\ c <> content).
Proof.
  intros Hf Hr Hd. split; [|split; [|split]].
  - intros Hc. pose proof (import_changed_clean content Hc) as Hn.
    split; [|split].
    + apply fix_imports_rewrite_clean. now apply no_import_pattern_patterns.
    + rewrite fix_imports_in_file_with.
      now apply (fix_with_unchanged _ _ w filepath f content).
    + intros t rel ->.
      pose proof (judge_unchanged import_changed (fun _ => false) (fs w) _ f content
                    Hf Hr Hd Hn) as Hj.
      destruct (trace_stable import_changed import_errline import_okline
                  (fun _ => false) FixImports.root (import_traversal t) _ (fs w) Hj)
        as [S1 S2].
      rewrite import_main_events, import_main_trace. simpl snd. simpl fs.
      split; [now rewrite S1 | split].
      * intros c Hin. apply in_app_or in Hin as [Hin | [Hin | []]];
          [now apply (S2 c) | discriminate].
      * intros Hin. apply in_app_or in Hin as [Hin | [Hin | []]].
        -- revert Hin. apply trace_unreported;
             [apply import_okline_inj | apply import_okline_errline | exact Hj].
        -- symmetry in Hin. now apply import_summary_not_okline in Hin.
  - intros Hc. pose proof (fixes_changed_clean content Hc) as Hn.
    split; [|split].
    + now apply fixes_rewrite_clean.
    + rewrite fix_file_with.
      now apply (fix_with_unchanged _ _ w filepath f content).
    + intros t rel ->.
      pose proof (judge_unchanged fixes_changed FinalImportFix.skipped (fs w) _ f
                    content Hf Hr Hd Hn) as Hj.
      destruct (trace_stable fixes_changed fixes_errline fixes_okline
                  FinalImportFix.skipped FinalImportFix.ROOT (fixes_traversal t) _
                  (fs w) Hj) as [S1 S2].
      rewrite fixes_main_events, fixes_main_trace. simpl snd. simpl fs.
      split; [now rewrite S1 | split].
      * intros c Hin. apply in_app_or in Hin as [Hin | [Hin | []]];
          [now apply (S2 c) | discriminate].
      * intros Hin. apply in_app_or in Hin as [Hin | [Hin | []]].
        -- revert Hin. apply trace_unreported;
             [apply fixes_okline_inj | apply fixes_okline_errline | exact Hj].
        -- symmetry in Hin. now apply fixes_summary_not_okline in Hin.
  - intros c Hin.
    rewrite (events_ext _ (fix_with import_changed import_errline filepath))
      in Hin by apply fix_imports_in_file_with.
    apply (fix_with_write _ _ w filepath f content c Hf Hd) in Hin.
    now apply import_changed_differs.
  - intros c Hin.
    rewrite (events_ext _ (fix_with fixes_changed fixes_errline filepath))
      in Hin by apply fix_file_with.
    apply (fix_with_write _ _ w filepath f content c Hf Hd) in Hin.
    now apply fixes_changed_differs.
Qed.

Lemma unmatched_file_left_alone_witness :
  FixImports.fix_imports_in_file page_ts world_plain
  = (Ok false, emit (Open page_ts R) world_plain)
  /\ FinalImportFix.fix_file page_ts world_plain
     = (Ok false, emit (Open page_ts R) world_plain).
Proof.
  destruct (unmatched_file_left_alone world_plain page_ts
              (plain_file (py "export const x = 1;")) (py "export const x = 1;"))
    as (H1 & H2 & _); [vm_compute; reflexivity | reflexivity | reflexivity |].
  split.
  - apply H1. apply no_import_pattern_check. vm_compute. reflexivity.
  - apply H2. apply no_fixes_match_check. vm_compute. reflexivity.
Defined.

(** C3 (as stated, refuted): final-import-fix.py does not keep double
    quotes.  The import of @/lib/program-metadata-cache in double quotes
    comes out in single quotes. *)
Lemma double_quotes_become_single :
  ~ (forall old_path new_path q content,
       In (old_path, new_path) fix_paths -> In q [sq; dq] ->
       contains (FixImports.from_ q old_path) content = true ->
       contains (FixImports.from_ q new_path) (FinalImportFix.rewrite content)
       = true).
Proof.
  intros H.
  specialize (H "@/lib/program-metadata-cache"%string
                "@/lib/solana/program-metadata-cache"%string
                dq (py "import c from " ++ [dq] ++ py "@/lib/program-metadata-cache"
                       ++ [dq])).
  assert (E : false = true); [|discriminate].
  rewrite <- H; [vm_compute; reflexivity | | right; left; reflexivity
                | vm_compute; reflexivity].
  in_table.
Qed.

(** C3 (amended): in fix-imports.py every entry other than the one for
    ./user-history-utils turns the import of its old path, in single or in
    double quotes, into the import of its new path in the same quotes; the
    import of ./user-history-utils ends as the import of
    ../user/user-history-utils, in the same quotes.  In
    final-import-fix.py every entry turns the import of its old path, in
    single or in double quotes, into the import of its new path in single
    quotes. *)
Theorem both_quote_styles_rewritten (q : ascii) (content : str) :
  In q [sq; dq] ->
  (forall old_path new_path,
     In (old_path, new_path) FixImports.IMPORT_MAP ->
     old_path <> "./user-history-utils"%string ->
     contains (FixImports.from_ q old_path) content = true ->
     contains (FixImports.from_ q new_path) (fst (FixImports.rewrite content))
     = true)
  /\ (contains (FixImports.from_ q "./user-history-utils") content = true ->
      contains (FixImports.from_ q "../user/user-history-utils")
               (fst (FixImports.rewrite content)) = true)
  /\ (forall old_path new_path,
        In (old_path, new_path) fix_paths ->
        contains (FixImports.from_ q old_path) content = true ->
        contains (FixImports.from_ sq new_path) (FinalImportFix.rewrite content)
        = true)
  /\ FinalImportFix.FIXES
     = map (fun '(old_path, new_path) =>
              (import_re old_path, FixImports.from_ sq new_path)) fix_paths.
Proof.
  intros Hq. split; [|split; [|split]].
  - intros o n Hin Hne Hc. exact (fix_imports_rewrites o n q content Hin Hne Hq Hc).
  - now apply user_history_chain.
  - intros o n Hin Hc. exact (fix_file_rewrites o n q content Hin Hq Hc).
  - apply FIXES_paths.
Qed.

Lemma both_quote_styles_rewritten_witness :
  contains (py "from '@/lib/solana/program-metadata-cache'")
    (FinalImportFix.rewrite
       (py "import c from " ++ [dq] ++ py "@/lib/program-metadata-cache" ++ [dq]))
  = true
  /\ contains (py "from " ++ [dq] ++ py "@/lib/logging/logger" ++ [dq])
       (fst (FixImports.rewrite
               (py "import c from " ++ [dq] ++ py "@/lib/logger" ++ [dq])))
     = true.
Proof.
  split.
  - destruct (both_quote_styles_rewritten dq
                (py "import c from " ++ [dq] ++ py "@/lib/program-metadata-cache"
                   ++ [dq]))
      as (_ & _ & H & _); [right; left; reflexivity|].
    apply (H "@/lib/program-metadata-cache" "@/lib/solana/program-metadata-cache")%string;
      [in_table | vm_compute; reflexivity].
  - destruct (both_quote_styles_rewritten dq
                (py "import c from " ++ [dq] ++ py "@/lib/logger" ++ [dq]))
      as (H & _); [right; left; reflexivity|].
    apply (H "@/lib/logger" "@/lib/logging/logger")%string;
      [in_table | discriminate | vm_compute; reflexivity].
Defined.


(** C5 (as stated, refuted): the summary does not enumerate the failed
    files.  With [app/page.ts] missing, the run of fix-imports.py over
    [demo_tree] fails on that file, and its last line is the one it prints
    when [app/page.ts] is readable and free of imports: the line gives
    neither the number of failures nor the path. *)
Lemma summary_silent_about_failures :
  ~ (forall t w rel e,
       In rel (import_traversal t) ->
       raises import_changed w (joinpath FixImports.root rel) e ->
       exists text,
         last (events (FixImports.main t) w) = Some (Print Stdout text)
         /\ contains (joinpath FixImports.root rel) text = true)
  /\ (forall e, ~ raises import_changed world_plain page_ts e)
  /\ last (events (FixImports.main demo_tree) world_missing)
     = Some (Print Stdout ([nl] ++ py "✨ Complete! Fixed 0/1 files"))
  /\ last (events (FixImports.main demo_tree) world_plain)
     = Some (Print Stdout ([nl] ++ py "✨ Complete! Fixed 0/1 files"))
  /\ last (events (FinalImportFix.main demo_tree) world_missing)
     = Some (Print Stdout ([nl] ++ py "✨ Fixed 0 files")).
Proof.
  split.
  { intros H.
    destruct (H demo_tree world_missing (py "app/page.ts")
                (FileNotFoundError page_ts)) as (text & H1 & H2).
    - vm_compute. auto.
    - left. vm_compute. reflexivity.
    - vm_compute in H1. injection H1 as <-. vm_compute in H2. discriminate. }
  split.
  { intros e [H | (s & c & H1 & H2 & _)].
    - vm_compute in H. discriminate.
    - vm_compute in H1. injection H1 as <-. vm_compute in H2. discriminate. }
  repeat split; vm_compute; reflexivity.
Qed.

(** C5 (amended): each run ends with one summary line, which gives the
    number of files written (in fix-imports.py, out of the number of files
    visited) and nothing about failures; each failure has been printed
    before, on a line of its own. *)
Theorem summary_counts_written_files (t : tree) (w : world) :
  (exists evs,
      events (FixImports.main t) w
      = evs ++ [Print Stdout
                  ([nl] ++ py "✨ Complete! Fixed "
                     ++ dec (length (filter is_write evs)) ++ py "/"
                     ++ dec (length (import_traversal t)) ++ py " files")]
      /\ forall rel e,
           In rel (import_traversal t) ->
           raises import_changed w (joinpath FixImports.root rel) e ->
           In (Print Stdout
                 (py "Error processing " ++ joinpath FixImports.root rel
                    ++ py ": " ++ exn_str e)) evs)
  /\ (exists evs,
         events (FinalImportFix.main t) w
         = evs ++ [Print Stdout
                     ([nl] ++ py "✨ Fixed "
                        ++ dec (length (filter is_write evs)) ++ py " files")]
         /\ forall rel e,
              In rel (fixes_traversal t) ->
              FinalImportFix.skipped (joinpath FinalImportFix.ROOT rel) = false ->
              raises fixes_changed w (joinpath FinalImportFix.ROOT rel) e ->
              In (Print Stdout
                    (py "Error: " ++ joinpath FinalImportFix.ROOT rel
                       ++ py ": " ++ exn_str e)) evs).
Proof.
  split.
  - exists (fst (fst (import_trace (import_traversal t) (fs w)))). split.
    + rewrite import_main_events, <- trace_count. reflexivity.
    + intros rel e Hin He.
      destruct (raises_judge import_changed (fun _ => false) w _ e eq_refl He)
        as [writing Hj].
      now apply (trace_failed import_changed import_errline import_okline
                   (fun _ => false) FixImports.root (import_traversal t) (fs w)
                   rel e writing).
  - exists (fst (fst (fixes_trace (fixes_traversal t) (fs w)))). split.
    + rewrite fixes_main_events, <- trace_count. reflexivity.
    + intros rel e Hin Hs He.
      destruct (raises_judge fixes_changed FinalImportFix.skipped w _ e Hs He)
        as [writing Hj].
      now apply (trace_failed fixes_changed fixes_errline fixes_okline
                   FinalImportFix.skipped FinalImportFix.ROOT (fixes_traversal t)
                   (fs w) rel e writing).
Qed.



(** C7 (as stated, refuted): a content with neither of the two patterns of
    the example can still hold another pattern of the table.  The import
    of @/lib/logger is rewritten by fix-imports.py and the file counts as
    changed. *)
Lemma content_without_the_two_patterns_rewritten :
  ~ (forall content,
       contains (py "from '../../../lib/solana-connection-server'") content = false ->
       contains (py "from '@/lib/feed-cache'") content = false ->
       FixImports.rewrite content = (content, false)).
Proof.
  intros H.
  specialize (H (py "import { logger } from '@/lib/logger'")).
  assert (E : FixImports.rewrite (py "import { logger } from '@/lib/logger'")
              = (py "import { logger } from '@/lib/logging/logger'", true))
    by (vm_compute; reflexivity).
  rewrite E in H. discriminate H; vm_compute; reflexivity.
Qed.

(** C7 (amended): final-import-fix.py turns the import of
    ../../../lib/solana-connection-server into the import of
    @/lib/solana/solana-connection-server, fix-imports.py turns the import
    of @/lib/feed-cache into the import of @/lib/caching/feed-cache, and a
    content in which no pattern of the script is found is left as it is:
    the per-file function reads the file, writes nothing and returns
    False, so the file is not printed as fixed. *)
Theorem end_to_end_examples (content : str) :
  (contains (py "from '../../../lib/solana-connection-server'") content = true ->
   contains (py "from '@/lib/solana/solana-connection-server'")
            (FinalImportFix.rewrite content) = true)
  /\ (contains (py "from '@/lib/feed-cache'") content = true ->
      contains (py "from '@/lib/caching/feed-cache'")
               (fst (FixImports.rewrite content)) = true)
  /\ (no_import_pattern content ->
      FixImports.rewrite content = (content, false)
      /\ forall w filepath f,
           fs w !! filepath = Some f -> may_read f = true ->
           data f = Text content ->
           FixImports.fix_imports_in_file filepath w
           = (Ok false, emit (Open filepath R) w))
  /\ (no_fixes_match content ->
      FinalImportFix.rewrite content = content
      /\ forall w filepath f,
           fs w !! filepath = Some f -> may_read f = true ->
           data f = Text content ->
           FinalImportFix.fix_file filepath w
           = (Ok false, emit (Open filepath R) w)).
Proof.
  split; [|split; [|split]].
  - intros H.
    apply (fix_file_rewrites "../../../lib/solana-connection-server"
             "@/lib/solana/solana-connection-server" sq content);
      [left; reflexivity | left; reflexivity | exact H].
  - intros H.
    apply (fix_imports_rewrites "@/lib/feed-cache" "@/lib/caching/feed-cache"
             sq content);
      [left; reflexivity | discriminate | left; reflexivity | exact H].
  - intros Hc. split.
    + apply fix_imports_rewrite_clean. now apply no_import_pattern_patterns.
    + intros w filepath f Hf Hr Hd. rewrite fix_imports_in_file_with.
      apply (fix_with_unchanged _ _ w filepath f content Hf Hr Hd).
      now apply import_changed_clean.
  - intros Hc. split.
    + now apply fixes_rewrite_clean.
    + intros w filepath f Hf Hr Hd. rewrite fix_file_with.
      apply (fix_with_unchanged _ _ w filepath f content Hf Hr Hd).
      now apply fixes_changed_clean.
Qed.

(** C8: a file below a directory named node_modules or .next is never
    opened by final-import-fix.py, neither for reading nor for writing,
    and is the same after the run, whatever its content. *)
Theorem excluded_directory_untouched (t : tree) (w : world) (p : str) :
  In (py "node_modules") (segments p) \/ In (py ".next") (segments p) ->
  (forall e, In e (events (FinalImportFix.main t) w) ->
             forall md c, e <> Open p md /\ e <> Write p c)
  /\ fs (snd (FinalImportFix.main t w)) !! p = fs w !! p.
Proof.
  intros H. apply skipped_path_untouched. unfold FinalImportFix.skipped.
  apply orb_true_iff.
  destruct H as [H | H]; [left | right]; now apply segments_contains.
Qed.

Lemma excluded_directory_untouched_witness :
  In (joinpath FinalImportFix.ROOT (py "node_modules/pkg/index.ts"))
     (map (joinpath FinalImportFix.ROOT) (fixes_traversal demo_tree))
  /\ fixes_changed (py "import c from '@/lib/program-metadata-cache'")
     = Some (py "import c from '@/lib/solana/program-metadata-cache'")
  /\ fs (snd (FinalImportFix.main demo_tree world_vendored)) !! vendored_ts
     = Some (plain_file (py "import c from '@/lib/program-metadata-cache'")).
Proof.
  split; [vm_compute; auto|].
  split; [vm_compute; reflexivity|].
  assert (S : In (py "node_modules") (segments vendored_ts)
              \/ In (py ".next") (segments vendored_ts))
    by (left; vm_compute; auto 10).
  pose proof (excluded_directory_untouched demo_tree world_vendored vendored_ts S)
    as [_ H].
  rewrite H. vm_compute. reflexivity.
Defined.

(** C9: a content that holds the import of ./user-history-utils in single
    quotes holds, after one pass of fix-imports.py, the import of
    ../user/user-history-utils and not the import of
    ./user/user-history-utils, the first rule's replacement; the pass
    reports a change.  On the import alone the two rules give
    ./user/user-history-utils and then ../user/user-history-utils. *)
Theorem user_history_utils_rewritten_twice (content : str) :
  contains (py "from './user-history-utils'") content = true ->
  contains (py "from '../user/user-history-utils'")
           (fst (FixImports.rewrite content)) = true
  /\ contains (py "from './user/user-history-utils'")
              (fst (FixImports.rewrite content)) = false
  /\ snd (FixImports.rewrite content) = true
  /\ str_replace (py "from './user-history-utils'")
                 (py "from './user/user-history-utils'")
                 (py "from './user-history-utils'")
     = py "from './user/user-history-utils'"
  /\ str_replace (py "from './user/user-history-utils'")
                 (py "from '../user/user-history-utils'")
                 (py "from './user/user-history-utils'")
     = py "from '../user/user-history-utils'"
  /\ FixImports.rewrite (py "from './user-history-utils'")
     = (py "from '../user/user-history-utils'", true).
Proof.
  intros H.
  assert (H1 : contains (py "from './user/user-history-utils'")
                        (fst (FixImports.rewrite content)) = false).
  { apply (fix_imports_output_clean content
             (FixImports.from_ sq "./user/user-history-utils",
              FixImports.from_ sq "../user/user-history-utils")).
    apply import_patterns_In; [|left; reflexivity].
    in_table. }
  split; [|split; [exact H1 | split; [|repeat split; vm_compute; reflexivity]]].
  - apply (user_history_chain sq content); [left; reflexivity | exact H].
  - destruct (snd (FixImports.rewrite content)) eqn:E; [reflexivity|].
    apply fix_imports_flag in E.
    assert (I : In (FixImports.from_ sq "./user-history-utils",
                    FixImports.from_ sq "./user/user-history-utils")
                   import_patterns).
    { apply import_patterns_In; [|left; reflexivity].
      in_table. }
    pose proof (fix_imports_output_clean content _ I) as C.
    rewrite E in C. simpl fst in C.
    change (FixImports.from_ sq "./user-history-utils")
      with (py "from './user-history-utils'") in C.
    congruence.
Qed.

Lemma user_history_utils_rewritten_twice_witness :
  contains (py "from '../user/user-history-utils'")
    (fst (FixImports.rewrite (py "import { h } from './user-history-utils'")))
  = true.
Proof.
  apply (user_history_utils_rewritten_twice
           (py "import { h } from './user-history-utils'")).
  vm_compute. reflexivity.
Defined.

(** C10: final-import-fix.py skips every path whose string holds
    node_modules or .next anywhere: such a path is neither opened nor
    written and its file stays as it was.  The component
    components/app.next.tsx lies in no directory of either name and is
    skipped all the same: its import is left as it was while the run
    reports no file as fixed. *)
Theorem substring_exclusion (t : tree) (w : world) (p : str) :
  contains (py "node_modules") p = true \/ contains (py ".next") p = true ->
  FinalImportFix.skipped p = true
  /\ (forall e, In e (events (FinalImportFix.main t) w) ->
                forall md c, e <> Open p md /\ e <> Write p c)
  /\ fs (snd (FinalImportFix.main t w)) !! p = fs w !! p
  /\ (segments app_next_tsx
      = [[]; py "home"; py "larp"; py "aldrin"; py "opensvm"; py "components";
         py "app.next.tsx"]
      /\ In (py "components/app.next.tsx") (fixes_traversal demo_tree)
      /\ FinalImportFix.skipped app_next_tsx = true
      /\ events (FinalImportFix.main demo_tree) world_vendored
         = [Open page_ts R; Print Stdout ([nl] ++ py "✨ Fixed 0 files")]).
Proof.
  intros H.
  assert (Hs : FinalImportFix.skipped p = true).
  { unfold FinalImportFix.skipped. apply orb_true_iff.
    destruct H; [now left | now right]. }
  split; [exact Hs|].
  destruct (skipped_path_untouched t w p Hs) as [H1 H2].
  split; [exact H1 | split; [exact H2|]].
  split; [vm_compute; reflexivity|].
  split; [vm_compute; auto|].
  split; vm_compute; reflexivity.
Qed.

Lemma substring_exclusion_witness :
  FinalImportFix.skipped app_next_tsx = true
  /\ fs (snd (FinalImportFix.main demo_tree world_vendored)) !! app_next_tsx
     = Some (plain_file (py "import c from '@/lib/program-metadata-cache'")).
Proof.
  assert (S : contains (py "node_modules") app_next_tsx = true
              \/ contains (py ".next") app_next_tsx = true)
    by (right; vm_compute; reflexivity).
  pose proof (substring_exclusion demo_tree world_vendored app_next_tsx S)
    as (H1 & _ & H2 & _).
  split; [exact H1|]. rewrite H2. vm_compute. reflexivity.
Defined.

(* ===================================================================== *)
(** * Further properties of the runs *)
(* ===================================================================== *)

Section RunnerMore.
Variable changed : str -> option str.
Variable errline : str -> exn -> str.
Variable okline : str -> str.
Variable skip : str -> bool.
Variable root : str.

Local Abbreviation judge_ := (judge changed skip).
Local Abbreviation events_ := (events_of errline okline root).
Local Abbreviation files_ := (files_after root).
Local Abbreviation trace_ := (trace changed errline okline skip root).

(** A path that is not visited keeps its file. *)
Lemma trace_frame (rels : list str) (p : str) : forall m : gmap str file,
  ~ In p (map (joinpath root) rels) ->
  snd (fst (trace_ rels m)) !! p = m !! p.
Proof.
  induction rels as [|r rels IH]; intros m Hp; [reflexivity|].
  simpl. specialize (IH (files_ r (judge_ m (joinpath root r)) m)).
  destruct (trace _ _ _ _ _ rels _) as [[evs m'] n]. simpl in *.
  rewrite IH by tauto. apply files_after_other. tauto.
Qed.

(** When no visit ends in a rewrite, nothing is written and the files
    stay as they are. *)
Lemma trace_quiet (rels : list str) : forall m : gmap str file,
  (forall rel, In rel rels -> is_rewritten (judge_ m (joinpath root rel)) = false) ->
  snd (fst (trace_ rels m)) = m
  /\ snd (trace_ rels m) = 0
  /\ forall e, In e (fst (fst (trace_ rels m))) -> is_write e = false.
Proof.
  induction rels as [|r rels IH]; intros m H; [simpl; intuition|].
  simpl. pose proof (H r (or_introl eq_refl)) as Hr.
  rewrite (files_after_kept root r _ m Hr).
  destruct (IH m) as (I1 & I2 & I3); [intros rel Hin; apply H; now right|].
  destruct (trace _ _ _ _ _ rels m) as [[evs m'] n]. simpl in *.
  subst. rewrite Hr. repeat split.
  intros e Hin. apply in_app_or in Hin as [Hin | Hin]; [|now apply I3].
  destruct (judge_ m (joinpath root r)) as [| |c|x []]; simpl in *;
    try discriminate; intuition (subst; reflexivity).
Qed.

(** At most one file is written per visit. *)
Lemma trace_count_le (rels : list str) : forall m : gmap str file,
  snd (trace_ rels m) <= length rels.
Proof.
  induction rels as [|r rels IH]; intros m; [simpl; lia|].
  simpl. specialize (IH (files_ r (judge_ m (joinpath root r)) m)).
  destruct (trace _ _ _ _ _ rels _) as [[evs m'] n]. simpl in *.
  destruct (is_rewritten _); lia.
Qed.

Hypothesis changed_once : forall s c, changed s = Some c -> changed c = None.

Lemma judge_after_rewrite (m : gmap str file) (rel : str) :
  is_rewritten
    (judge_ (files_ rel (judge_ m (joinpath root rel)) m) (joinpath root rel))
  = false.
Proof.
  destruct (judge_ m (joinpath root rel)) as [| |c|x b] eqn:E;
    try (simpl; now rewrite E).
  simpl. unfold judge in *. destruct (skip (joinpath root rel)); [reflexivity|].
  rewrite lookup_insert_eq. simpl.
  destruct (m !! joinpath root rel) as [f|]; [|discriminate].
  destruct (may_read f); [|discriminate].
  destruct (data f) as [s|]; [|discriminate].
  destruct (changed s) as [c'|] eqn:Hc; [|discriminate].
  destruct (may_write f); [|discriminate].
  injection E as <-. now rewrite (changed_once s c' Hc).
Qed.

(** After a run no visited path would be rewritten again. *)
Lemma trace_settled (rels : list str) : forall (m : gmap str file) (rel : str),
  In rel rels ->
  is_rewritten (judge_ (snd (fst (trace_ rels m))) (joinpath root rel)) = false.
Proof.
  induction rels as [|r rels IH]; intros m rel Hin; [destruct Hin|].
  simpl.
  pose proof (IH (files_ r (judge_ m (joinpath root r)) m) rel) as IHrel.
  pose proof (trace_stable changed errline okline skip root rels (joinpath root r)
                (files_ r (judge_ m (joinpath root r)) m)
                (judge_after_rewrite m r)) as [S _].
  destruct (trace _ _ _ _ _ rels _) as [[evs m'] n]. simpl in *.
  destruct (decide (r = rel)) as [-> | Hne].
  - rewrite (judge_ext changed skip m' _ _ S). apply judge_after_rewrite.
  - destruct Hin as [-> | Hin]; [contradiction | now apply IHrel].
Qed.

(** A visited file that is to be rewritten holds the new content after
    the run, and the write and the line for it are in the log. *)
Lemma trace_rewritten (rels : list str) :
  forall (m : gmap str file) (rel : str) (c : str),
  In rel rels ->
  judge_ m (joinpath root rel) = Rewritten c ->
  snd (fst (trace_ rels m)) !! joinpath root rel = Some (File (Text c) true true)
  /\ In (Write (joinpath root rel) c) (fst (fst (trace_ rels m)))
  /\ In (Print Stdout (okline rel)) (fst (fst (trace_ rels m))).
Proof.
  induction rels as [|r rels IH]; intros m rel c Hin Hj; [destruct Hin|].
  simpl. destruct (decide (r = rel)) as [-> | Hne].
  - pose proof (trace_stable changed errline okline skip root rels (joinpath root rel)
                  (files_ rel (judge_ m (joinpath root rel)) m)
                  (judge_after_rewrite m rel)) as [S _].
    destruct (trace _ _ _ _ _ rels _) as [[evs m'] n]. simpl in *.
    rewrite S, Hj. simpl. rewrite lookup_insert_eq. auto 10.
  - destruct Hin as [-> | Hin]; [contradiction|].
    assert (Hj' : judge_ (files_ r (judge_ m (joinpath root r)) m) (joinpath root rel)
                  = Rewritten c).
    { rewrite (judge_ext changed skip _ m); [exact Hj|]. apply files_after_other.
      intros H. now apply (joinpath_inj root) in H. }
    specialize (IH _ rel c Hin Hj').
    destruct (trace _ _ _ _ _ rels _) as [[evs m'] n]. simpl in *.
    destruct IH as (I1 & I2 & I3). split; [exact I1|].
    split; apply in_or_app; now right.
Qed.

Hypothesis okline_inj : forall a b, okline a = okline b -> a = b.
Hypothesis okline_errline : forall a p e, okline a <> errline p e.

(** A path is printed as fixed exactly when it has been written. *)
Lemma trace_reported (rels : list str) : forall (m : gmap str file) (rel : str),
  In (Print Stdout (okline rel)) (fst (fst (trace_ rels m)))
  <-> exists c, In (Write (joinpath root rel) c) (fst (fst (trace_ rels m))).
Proof.
  induction rels as [|r rels IH]; intros m rel; simpl.
  { split; [intros [] | intros [c []]]. }
  specialize (IH (files_ r (judge_ m (joinpath root r)) m) rel).
  destruct (trace _ _ _ _ _ rels _) as [[evs m'] n]. simpl in *.
  split.
  - intros Hin. apply in_app_or in Hin as [Hin | Hin].
    + destruct (judge_ m (joinpath root r)) as [| |c|x []]; simpl in Hin.
      * destruct Hin.
      * destruct Hin as [Hin | []]. discriminate.
      * destruct Hin as [Hin | [Hin | [Hin | [Hin | []]]]]; try discriminate.
        injection Hin as Hin. apply okline_inj in Hin as ->.
        exists c. simpl. auto.
      * destruct Hin as [Hin | [Hin | [Hin | []]]]; try discriminate.
        injection Hin as Hin. symmetry in Hin. now apply okline_errline in Hin.
      * destruct Hin as [Hin | [Hin | []]]; try discriminate.
        injection Hin as Hin. symmetry in Hin. now apply okline_errline in Hin.
    + apply IH in Hin as [c Hc]. exists c. apply in_or_app. now right.
  - intros [c Hin]. apply in_or_app. apply in_app_or in Hin as [Hin | Hin].
    + left. destruct (judge_ m (joinpath root r)) as [| |c'|x []]; simpl in Hin.
      * destruct Hin.
      * destruct Hin as [Hin | []]. discriminate.
      * destruct Hin as [Hin | [Hin | [Hin | [Hin | []]]]]; try discriminate.
        injection Hin as Hp _. apply (joinpath_inj root) in Hp as ->.
        simpl. auto.
      * destruct Hin as [Hin | [Hin | [Hin | []]]]; discriminate.
      * destruct Hin as [Hin | [Hin | []]]; discriminate.
    + right. apply IH. eauto.
Qed.
End RunnerMore.

Lemma import_changed_once (s c : str) :
  import_changed s = Some c -> import_changed c = None.
Proof.
  intros H. apply import_changed_differs in H as [-> _].
  unfold import_changed. rewrite fix_imports_rewrite_clean; [reflexivity|].
  intros p Hp. now apply fix_imports_output_clean.
Qed.

Lemma fixes_changed_once (s c : str) :
  fixes_changed s = Some c -> fixes_changed c = None.
Proof.
  intros H. apply fixes_changed_differs in H as [-> _].
  unfold fixes_changed, FinalImportFix.str_eqb.
  rewrite !fix_file_rewrite.
  rewrite (apply_rules_idem fixes_rules s fixes_rules_uniform fixes_rules_settle).
  now rewrite bool_decide_eq_true_2.
Qed.

(** X1: a readable and writable file of the traversal whose content the
    pass changes holds the rewritten content after the run (also when the
    traversal comes to it more than once); the write is in the log and
    the file is printed as fixed.  In final-import-fix.py this holds for
    the files that are not skipped. *)
Theorem matching_file_rewritten_by_run
        (t : tree) (w : world) (rel : str) (content : str) :
  (In rel (import_traversal t) ->
   fs w !! joinpath FixImports.root rel = Some (File (Text content) true true) ->
   snd (FixImports.rewrite content) = true ->
   fs (snd (FixImports.main t w)) !! joinpath FixImports.root rel
   = Some (File (Text (fst (FixImports.rewrite content))) true true)
   /\ In (Write (joinpath FixImports.root rel) (fst (FixImports.rewrite content)))
         (events (FixImports.main t) w)
   /\ In (Print Stdout (py "✓ Fixed: " ++ rel)) (events (FixImports.main t) w))
  /\ (In rel (fixes_traversal t) ->
      FinalImportFix.skipped (joinpath FinalImportFix.ROOT rel) = false ->
      fs w !! joinpath FinalImportFix.ROOT rel
      = Some (File (Text content) true true) ->
      FinalImportFix.rewrite content <> content ->
      fs (snd (FinalImportFix.main t w)) !! joinpath FinalImportFix.ROOT rel
      = Some (File (Text (FinalImportFix.rewrite content)) true true)
      /\ In (Write (joinpath FinalImportFix.ROOT rel)
                   (FinalImportFix.rewrite content))
            (events (FinalImportFix.main t) w)
      /\ In (Print Stdout (py "✓ " ++ rel)) (events (FinalImportFix.main t) w)).
Proof.
  split.
  - intros Hin Hf Hc.
    assert (Hj : judge import_changed (fun _ => false) (fs w)
                       (joinpath FixImports.root rel)
                 = Rewritten (fst (FixImports.rewrite content))).
    { unfold judge. rewrite Hf. cbn [may_read may_write data]. unfold import_changed.
      destruct (FixImports.rewrite content) as [c b]. cbn [fst snd] in *. now subst. }
    destruct (trace_rewritten import_changed import_errline import_okline
                (fun _ => false) FixImports.root import_changed_once
                (import_traversal t) (fs w) rel _ Hin Hj) as (H1 & H2 & H3).
    rewrite import_main_events, import_main_trace. cbn [snd fs].
    split; [exact H1 | split; apply in_or_app; now left].
  - intros Hin Hs Hf Hc.
    assert (Hj : judge fixes_changed FinalImportFix.skipped (fs w)
                       (joinpath FinalImportFix.ROOT rel)
                 = Rewritten (FinalImportFix.rewrite content)).
    { unfold judge. rewrite Hs, Hf. cbn [may_read may_write data].
      unfold fixes_changed, FinalImportFix.str_eqb.
      now rewrite bool_decide_eq_false_2. }
    destruct (trace_rewritten fixes_changed fixes_errline fixes_okline
                FinalImportFix.skipped FinalImportFix.ROOT fixes_changed_once
                (fixes_traversal t) (fs w) rel _ Hin Hj) as (H1 & H2 & H3).
    rewrite fixes_main_events, fixes_main_trace. cbn [snd fs].
    split; [exact H1 | split; apply in_or_app; now left].
Qed.

Lemma matching_file_rewritten_by_run_witness :
  fs (snd (FixImports.main demo_tree world_logger)) !! page_ts
  = Some (plain_file (py "import { logger } from '@/lib/logging/logger'"))
  /\ In (Print Stdout (py "✓ Fixed: app/page.ts"))
        (events (FixImports.main demo_tree) world_logger).
Proof.
  destruct (matching_file_rewritten_by_run demo_tree world_logger
              (py "app/page.ts") (py "import { logger } from '@/lib/logger'"))
    as [H _].
  destruct H as (H1 & _ & H3);
    [vm_compute; auto | vm_compute; reflexivity | vm_compute; reflexivity |].
  split; [|exact H3].
  change page_ts with (joinpath FixImports.root (py "app/page.ts")).
  rewrite H1. vm_compute. reflexivity.
Defined.

(** X2: running a script again right after a run writes no file, leaves
    every file as it is and reports no file as fixed. *)
Theorem second_run_changes_nothing (t : tree) (w : world) :
  (let w1 := snd (FixImports.main t w) in
   fs (snd (FixImports.main t w1)) = fs w1
   /\ (forall p c, ~ In (Write p c) (events (FixImports.main t) w1))
   /\ last (events (FixImports.main t) w1)
      = Some (Print Stdout
                ([nl] ++ py "✨ Complete! Fixed 0/"
                   ++ dec (length (import_traversal t)) ++ py " files")))
  /\ (let w1 := snd (FinalImportFix.main t w) in
      fs (snd (FinalImportFix.main t w1)) = fs w1
      /\ (forall p c, ~ In (Write p c) (events (FinalImportFix.main t) w1))
      /\ last (events (FinalImportFix.main t) w1)
         = Some (Print Stdout ([nl] ++ py "✨ Fixed 0 files"))).
Proof.
  split; cbv zeta.
  - rewrite (import_main_trace t w). cbn [snd].
    destruct (trace_quiet import_changed import_errline import_okline
                (fun _ => false) FixImports.root (import_traversal t)
                (snd (fst (import_trace (import_traversal t) (fs w)))))
      as (Q1 & Q2 & Q3).
    { intros rel Hin. now apply trace_settled; [apply import_changed_once|]. }
    rewrite import_main_events, import_main_trace. cbn [snd fs].
    rewrite Q2. split; [exact Q1 | split].
    + intros p c Hin. apply in_app_or in Hin as [Hin | [Hin | []]];
        [|discriminate].
      now apply Q3 in Hin.
    + now rewrite last_snoc.
  - rewrite (fixes_main_trace t w). cbn [snd].
    destruct (trace_quiet fixes_changed fixes_errline fixes_okline
                FinalImportFix.skipped FinalImportFix.ROOT (fixes_traversal t)
                (snd (fst (fixes_trace (fixes_traversal t) (fs w)))))
      as (Q1 & Q2 & Q3).
    { intros rel Hin. now apply trace_settled; [apply fixes_changed_once|]. }
    rewrite fixes_main_events, fixes_main_trace. cbn [snd fs].
    rewrite Q2. split; [exact Q1 | split].
    + intros p c Hin. apply in_app_or in Hin as [Hin | [Hin | []]];
        [|discriminate].
      now apply Q3 in Hin.
    + now rewrite last_snoc.
Qed.

(** X3: fix-imports.py opens and writes only paths of its traversal: the
    files that [rglob] yields for *.ts and *.tsx below those of the seven
    directories of [dirs_to_scan] that exist.  Every other path is never
    opened or written and keeps its file.  The same holds for
    final-import-fix.py and the files below [ROOT]. *)
Theorem only_traversal_paths_touched (t : tree) (w : world) (p : str) :
  (~ In p (map (joinpath FixImports.root) (import_traversal t)) ->
   (forall e, In e (events (FixImports.main t) w) ->
              forall md c, e <> Open p md /\ e <> Write p c)
   /\ fs (snd (FixImports.main t w)) !! p = fs w !! p)
  /\ (~ In p (map (joinpath FinalImportFix.ROOT) (fixes_traversal t)) ->
      (forall e, In e (events (FinalImportFix.main t) w) ->
                 forall md c, e <> Open p md /\ e <> Write p c)
      /\ fs (snd (FinalImportFix.main t w)) !! p = fs w !! p)
  /\ (forall rel,
        In rel (import_traversal t) <->
        exists dir_name ext r,
          In dir_name FixImports.dirs_to_scan
          /\ exists_ t (joinpath FixImports.root dir_name) = true
          /\ In ext [py "*.ts"; py "*.tsx"]
          /\ In r (rglob t (joinpath FixImports.root dir_name) ext)
          /\ rel = joinpath dir_name r)
  /\ (forall rel,
        In rel (fixes_traversal t) <->
        exists ext, In ext [py "*.ts"; py "*.tsx"]
                    /\ In rel (rglob t FinalImportFix.ROOT ext)).
Proof.
  split; [|split; [|split]].
  - intros Hp. split.
    + intros e Hin md c. rewrite import_main_events in Hin.
      apply in_app_or in Hin as [Hin | [<- | []]]; [|split; discriminate].
      revert e Hin md c. apply trace_untouched.
      intros rel Hrel E. exfalso. apply Hp. subst p. now apply in_map.
    + rewrite import_main_trace. cbn [snd fs]. now apply trace_frame.
  - intros Hp. split.
    + intros e Hin md c. rewrite fixes_main_events in Hin.
      apply in_app_or in Hin as [Hin | [<- | []]]; [|split; discriminate].
      revert e Hin md c. apply trace_untouched.
      intros rel Hrel E. exfalso. apply Hp. subst p. now apply in_map.
    + rewrite fixes_main_trace. cbn [snd fs]. now apply trace_frame.
  - intros rel. unfold import_traversal. rewrite in_flat_map. split.
    + intros [dir_name [Hd Hin]].
      destruct (exists_ t (joinpath FixImports.root dir_name)) eqn:E;
        cbn [negb] in Hin; [|destruct Hin].
      apply in_flat_map in Hin as [ext [He Hin]].
      apply in_map_iff in Hin as [r [<- Hr]].
      exists dir_name, ext, r. auto.
    + intros (dir_name & ext & r & Hd & E & He & Hr & ->).
      exists dir_name. split; [exact Hd|]. rewrite E. cbn [negb].
      apply in_flat_map. exists ext. split; [exact He | now apply in_map].
  - intros rel. unfold fixes_traversal. now rewrite in_flat_map.
Qed.

(** X4: in a run a file is printed as fixed exactly when it has been
    written, and at most as many files are written as are visited. *)
Theorem fixed_line_iff_written (t : tree) (w : world) (rel : str) :
  (In (Print Stdout (py "✓ Fixed: " ++ rel)) (events (FixImports.main t) w)
   <-> exists c, In (Write (joinpath FixImports.root rel) c)
                    (events (FixImports.main t) w))
  /\ (In (Print Stdout (py "✓ " ++ rel)) (events (FinalImportFix.main t) w)
      <-> exists c, In (Write (joinpath FinalImportFix.ROOT rel) c)
                       (events (FinalImportFix.main t) w))
  /\ length (filter is_write (events (FixImports.main t) w))
     <= length (import_traversal t)
  /\ length (filter is_write (events (FinalImportFix.main t) w))
     <= length (fixes_traversal t).
Proof.
  rewrite import_main_events, fixes_main_events.
  split; [|split; [|split]].
  - rewrite in_app_iff.
    rewrite (trace_reported import_changed import_errline import_okline
               (fun _ => false) FixImports.root import_okline_inj
               import_okline_errline (import_traversal t) (fs w) rel).
    split.
    + intros [[c H] | [H | []]]; [|discriminate].
      exists c. apply in_or_app. now left.
    + intros [c H]. apply in_app_or in H as [H | [H | []]]; [|discriminate].
      left. eauto.
  - rewrite in_app_iff.
    rewrite (trace_reported fixes_changed fixes_errline fixes_okline
               FinalImportFix.skipped FinalImportFix.ROOT fixes_okline_inj
               fixes_okline_errline (fixes_traversal t) (fs w) rel).
    split.
    + intros [[c H] | [H | []]]; [|discriminate].
      exists c. apply in_or_app. now left.
    + intros [c H]. apply in_app_or in H as [H | [H | []]]; [|discriminate].
      left. eauto.
  - rewrite filter_app, length_app. cbn [filter is_write length].
    rewrite <- trace_count, Nat.add_0_r. apply trace_count_le.
  - rewrite filter_app, length_app. cbn [filter is_write length].
    rewrite <- trace_count, Nat.add_0_r. apply trace_count_le.
Qed.

(* ===================================================================== *)
(** * Further properties of the rewrite passes *)
(* ===================================================================== *)

Lemma both_tables_uniform : all_uniform (import_rules ++ fixes_rules) = true.
Proof. vm_compute. reflexivity. Qed.

Lemma both_tables_settle :
  settles [] (import_rules ++ fixes_rules) = true
  /\ settles [] (fixes_rules ++ import_rules) = true.
Proof. split; vm_compute; reflexivity. Qed.

Lemma langs_app (rs1 rs2 : list rule) : langs (rs1 ++ rs2) = langs rs1 ++ langs rs2.
Proof. apply flat_map_app. Qed.

Lemma import_patterns_langs (p : str * str) :
  In p import_patterns -> In (fst p) (langs import_rules).
Proof.
  intros Hp. apply (langs_In import_rules ([fst p], snd p)); [|left; reflexivity].
  unfold import_rules. apply in_map_iff. exists p. now destruct p.
Qed.

(** A content without any string that either table matches passes both
    scripts unchanged. *)
Lemma clean_for_both (s : str) :
  (forall P, In P (langs import_rules ++ langs fixes_rules) ->
             contains P s = false) ->
  FixImports.rewrite s = (s, false) /\ FinalImportFix.rewrite s = s.
Proof.
  intros H. split.
  - apply fix_imports_rewrite_clean. intros p Hp. apply H, in_or_app. left.
    now apply import_patterns_langs.
  - rewrite fix_file_rewrite. apply apply_rules_id; [apply fixes_rules_uniform|].
    intros P HP. apply H, in_or_app. now right.
Qed.

(** X5: after the two scripts have run one after the other, in either
    order, neither of them finds anything to change. *)
Theorem scripts_in_sequence_settle (content : str) :
  (FixImports.rewrite (FinalImportFix.rewrite (fst (FixImports.rewrite content)))
   = (FinalImportFix.rewrite (fst (FixImports.rewrite content)), false)
   /\ FinalImportFix.rewrite
        (FinalImportFix.rewrite (fst (FixImports.rewrite content)))
      = FinalImportFix.rewrite (fst (FixImports.rewrite content)))
  /\ (FixImports.rewrite (fst (FixImports.rewrite (FinalImportFix.rewrite content)))
      = (fst (FixImports.rewrite (FinalImportFix.rewrite content)), false)
      /\ FinalImportFix.rewrite
           (fst (FixImports.rewrite (FinalImportFix.rewrite content)))
         = fst (FixImports.rewrite (FinalImportFix.rewrite content))).
Proof.
  destruct both_tables_settle as [S1 S2]. split; apply clean_for_both.
  - rewrite fix_file_rewrite, fix_imports_rewrite, <- apply_rules_app.
    intros P HP. rewrite <- langs_app in HP.
    apply (apply_rules_clean (import_rules ++ fixes_rules) [] content
             both_tables_uniform S1); [intros ? [] | exact HP].
  - rewrite fix_imports_rewrite, fix_file_rewrite, <- apply_rules_app.
    intros P HP.
    apply (apply_rules_clean (fixes_rules ++ import_rules) [] content);
      [vm_compute; reflexivity | exact S2 | intros ? [] |].
    rewrite app_nil_l, langs_app. apply in_app_or in HP. apply in_or_app. tauto.
Qed.

Lemma contains_prefix (a b s : str) :
  contains (a ++ b) s = true -> contains a s = true.
Proof.
  rewrite !contains_spec. intros (x & y & ->).
  exists x, (b ++ y). now rewrite <- app_assoc.
Qed.

(** The strings a pattern of [FIXES] matches. *)
Lemma expand_import_re (old_path : string) (P : str) :
  In P (expand (import_re old_path)) ->
  exists q1 q2, In q1 [sq; dq] /\ In q2 [sq; dq]
                /\ P = py "from " ++ [q1] ++ py old_path ++ [q2].
Proof.
  unfold import_re. rewrite expand_lit. intros H.
  apply in_map_iff in H as [P1 [<- H]].
  change ([FinalImportFix.quote] ++ FinalImportFix.lit old_path ++ [FinalImportFix.quote])
    with (FinalImportFix.quote :: (FinalImportFix.lit old_path ++ [FinalImportFix.quote]))
    in H.
  apply In_expand_cons in H as (q1 & P2 & -> & Hq1 & H).
  rewrite expand_lit in H. apply in_map_iff in H as [P3 [<- H]].
  apply (In_expand_cons FinalImportFix.quote []) in H as (q2 & P4 & -> & Hq2 & H).
  destruct H as [<- | []]. exists q1, q2. auto.
Qed.

Lemma import_re_matches2 (old_path : string) q1 q2 :
  In q1 [sq; dq] -> In q2 [sq; dq] ->
  In (py "from " ++ [q1] ++ py old_path ++ [q2]) (expand (import_re old_path)).
Proof.
  intros H1 H2. unfold import_re.
  rewrite expand_lit. apply in_map.
  change ([FinalImportFix.quote] ++ FinalImportFix.lit old_path ++ [FinalImportFix.quote])
    with (FinalImportFix.quote :: (FinalImportFix.lit old_path ++ [FinalImportFix.quote])).
  apply In_expand_cons. exists q1, (py old_path ++ [q2]).
  split; [reflexivity | split; [exact H1|]].
  rewrite expand_lit. apply in_map.
  apply (In_expand_cons FinalImportFix.quote [] [q2]). exists q2, [].
  split; [reflexivity | split; [exact H2 | left; reflexivity]].
Qed.

Lemma fixes_rules_paths (L : list str) (new : str) :
  In (L, new) fixes_rules ->
  exists old_path new_path,
    In (old_path, new_path) fix_paths
    /\ L = expand (import_re old_path) /\ new = FixImports.from_ sq new_path.
Proof.
  unfold fixes_rules. rewrite FIXES_paths, map_map. intros H.
  apply in_map_iff in H as [[o n] [E H]]. injection E as <- <-. eauto.
Qed.

(** X6: a content in which the word from followed by a blank does not
    occur is left unchanged by both scripts: imports written without
    from, such as require calls and dynamic imports, are never
    rewritten. *)
Theorem no_from_no_change (content : str) :
  contains (py "from ") content = false ->
  FixImports.rewrite content = (content, false)
  /\ FinalImportFix.rewrite content = content.
Proof.
  intros H. apply clean_for_both. intros P HP.
  destruct (contains P content) eqn:E; [|reflexivity].
  rewrite <- H. symmetry.
  apply in_app_or in HP as [HP | HP]; unfold langs in HP;
    apply in_flat_map in HP as [[L new] [Hr HP]]; cbn [fst] in HP.
  - unfold import_rules in Hr. apply in_map_iff in Hr as [[o n] [E' Hr]].
    injection E' as <- <-. destruct HP as [<- | []].
    unfold import_patterns in Hr. apply in_flat_map in Hr as [[op np] [_ Hr]].
    destruct Hr as [Hr | [Hr | []]]; injection Hr as <- _;
      now apply (contains_prefix (py "from ")) in E.
  - apply fixes_rules_paths in Hr as (o & n & _ & -> & _).
    apply expand_import_re in HP as (q1 & q2 & _ & _ & ->).
    now apply (contains_prefix (py "from ")) in E.
Qed.

Lemma no_from_no_change_witness :
  FixImports.rewrite (py "const log = require('@/lib/logger')")
  = (py "const log = require('@/lib/logger')", false)
  /\ FinalImportFix.rewrite (py "const log = require('@/lib/logger')")
     = py "const log = require('@/lib/logger')".
Proof.
  apply (no_from_no_change (py "const log = require('@/lib/logger')")).
  vm_compute. reflexivity.
Defined.

(** X7: final-import-fix.py takes the two quotes of an import one by one:
    an import of an old path of [FIXES] between any two quote characters,
    also two different ones, becomes the import of the new path in single
    quotes. *)
Theorem mixed_quotes_rewritten
        (old_path new_path : string) (q1 q2 : ascii) (content : str) :
  In (old_path, new_path) fix_paths ->
  In q1 [sq; dq] -> In q2 [sq; dq] ->
  contains (py "from " ++ [q1] ++ py old_path ++ [q2]) content = true ->
  contains (py "from '" ++ py new_path ++ py "'")
           (FinalImportFix.rewrite content) = true.
Proof.
  intros Hin H1 H2 Hc. rewrite fix_file_rewrite.
  apply (table_carries fixes_rules (fun _ => false) fixes_rules_uniform
           fixes_rules_carry
           (expand (import_re old_path), FixImports.from_ sq new_path))
    with (P := py "from " ++ [q1] ++ py old_path ++ [q2]).
  - unfold fixes_rules. rewrite FIXES_paths, map_map. apply in_map_iff.
    exists (old_path, new_path). split; [reflexivity | exact Hin].
  - reflexivity.
  - now apply import_re_matches2.
  - exact Hc.
Qed.

Lemma mixed_quotes_rewritten_witness :
  contains (py "from '@/lib/search/qdrant'")
    (FinalImportFix.rewrite
       (py "import { q } from '../../../../../lib/qdrant" ++ [dq] ++ py ";"))
  = true.
Proof.
  apply (mixed_quotes_rewritten "../../../../../lib/qdrant" "@/lib/search/qdrant"
           sq dq).
  - in_table.
  - in_table.
  - in_table.
  - vm_compute. reflexivity.
Defined.

(** X9: in fix-imports.py the flag [changes_made] is set exactly when the
    pass has changed the content, and the pass never makes a content
    shorter. *)
Theorem changes_made_iff_changed (content : str) :
  (snd (FixImports.rewrite content) = true
   <-> fst (FixImports.rewrite content) <> content)
  /\ length content <= length (fst (FixImports.rewrite content)).
Proof.
  split; [split|].
  - intros H E. apply fix_imports_flag_longer in H. rewrite E in H. lia.
  - intros H. destruct (snd (FixImports.rewrite content)) eqn:E; [reflexivity|].
    apply fix_imports_flag in E. rewrite E in H. now contradiction H.
  - rewrite rewrite_flat.
    apply (fold_try_pattern_length import_patterns content false
             import_patterns_grow).
Qed.

(** The quote characters of a text. *)
Local Abbreviation quotes_of l := (List.filter (item_accepts FinalImportFix.quote) l).








